(** * REINFORCE for the inverted pendulum: a model of the notebook's core

    The notebook [reinforce_invpend_gym_v26.ipynb] defines a policy network
    ([Policy_Network]), an agent ([REINFORCE]) with [sample_action] and
    [update], and a training driver.  This file embeds those definitions and
    proves the properties its documentation states about them.

    Conventions.
    - Numbers.  The code computes with Python floats and torch tensors.  All
      definitions are written once, over a scalar type [F] with the arithmetic
      the code uses ([Scalar]) and the elementary functions the network uses
      ([Elementary]).  Three instances are given: exact rationals [Q] (to run
      the arithmetic of [update]), the reals [R] (the ideal reading of the
      formulas) and [f32], single precision as torch computes it by default.
    - Library code.  What torch provides and the notebook only calls (the
      random generator, drawing from and scoring a normal distribution,
      reverse-mode differentiation, the AdamW rule) is the interface [Torch].
      The checks torch's [Normal] makes on its arguments and on the value it
      scores are written out, over the two comparisons of [Comparison].
    - The environment.  gymnasium's [wrapped_env] is the interface [Env].
    - Exceptions.  A call that can raise returns a [result]. *)

From Stdlib Require Import List ZArith QArith Qreals Reals Lra Lia.
From Stdlib Require Lqa.
Import ListNotations.

Set Implicit Arguments.

(** ** Exceptions and results *)

(** [AttributeError], [RuntimeError] and [ValueError] are what Python and
    torch raise on the paths modelled here.  The last three are the names of
    the documented error taxonomy; no line of the notebook defines or raises
    them. *)
Inductive exn : Type :=
| AttributeError
| RuntimeError
| ValueError
| IndexError
| InvalidObservationShape
| DegenerateDistributionError
| EmptyTrajectoryError.

Inductive result (A : Type) : Type :=
| Ok (a : A)
| Error (e : exn).

Arguments Ok {A} a.
Arguments Error {A} e.

Definition bind {A B : Type} (m : result A) (k : A -> result B) : result B :=
  match m with
  | Ok a => k a
  | Error e => Error e
  end.

Notation "x <- m ;; k" := (bind m (fun x => k))
  (at level 61, m at next level, right associativity).
Notation "' p <- m ;; k" := (bind m (fun x => let p := x in k))
  (at level 61, p pattern, m at next level, right associativity).

(** ** Scalars *)

Class Scalar (F : Type) : Type := {
  of_Q : Q -> F;          (* a Python number literal as a scalar *)
  s_add : F -> F -> F;
  s_mul : F -> F -> F;
  s_div : F -> F -> F
}.

Class Elementary (F : Type) : Type := {
  t_tanh : F -> F;        (* nn.Tanh *)
  t_exp : F -> F;         (* torch.exp *)
  t_log : F -> F          (* torch.log *)
}.

(** The comparisons of two entries, [a == b] and [a < b]. *)
Class Comparison (F : Type) : Type := {
  s_eqb : F -> F -> bool;
  s_ltb : F -> F -> bool
}.

Section Tensors.
Context {F : Type} {SF : Scalar F}.

(** [sum] and [mean] of a one-dimensional tensor. *)
Definition t_sum (xs : list F) : F := fold_left s_add xs (of_Q 0).

Definition t_mean (xs : list F) : F :=
  s_div (t_sum xs) (of_Q (inject_Z (Z.of_nat (length xs)))).

(** *** Discounted returns, the first loop of [update]

<<
    running_g = 0
    gs = []
    for R in self.rewards[::-1]:
        running_g = R + self.gamma * running_g
        gs.insert(0, running_g)
>>
    The loop state is the pair [(running_g, gs)]. *)
Definition returns_step (gamma : F) (st : F * list F) (R : F) : F * list F :=
  let running_g := s_add R (s_mul gamma (fst st)) in
  (running_g, running_g :: snd st).

Definition returns_loop (gamma : F) (rewards : list F) : F * list F :=
  fold_left (returns_step gamma) (rev rewards) (of_Q 0, []).

Definition discounted_returns (gamma : F) (rewards : list F) : list F :=
  snd (returns_loop gamma rewards).
End Tensors.

(** ** The policy network *)

Section Network.
Context {F : Type} {SF : Scalar F} {EF : Elementary F}.

(** [nn.Linear(in_features, out_features)]: [weight] has [out_features]
    rows of [in_features] entries, [bias] has [out_features] entries. *)
Record Linear : Type := {
  in_features : nat;
  out_features : nat;
  weight : list (list F);
  bias : list F
}.

Definition dot (x row : list F) : F :=
  t_sum (map (fun xw => s_mul (fst xw) (snd xw)) (combine x row)).

(** One row through a linear layer.  torch refuses an input whose last
    dimension is not [in_features] with a [RuntimeError] ("mat1 and mat2
    shapes cannot be multiplied"). *)
Definition linear (l : Linear) (x : list F) : result (list F) :=
  if Nat.eqb (length x) (in_features l)
  then Ok (map (fun rb => s_add (dot x (fst rb)) (snd rb))
               (combine (weight l) (bias l)))
  else Error RuntimeError.

(** A layer applied to every row of a batch. *)
Fixpoint on_rows {A B : Type} (f : A -> result B) (rows : list A)
  : result (list B) :=
  match rows with
  | [] => Ok []
  | r :: rows' =>
      y <- f r ;;
      ys <- on_rows f rows' ;;
      Ok (y :: ys)
  end.

Definition Tanh (x : list (list F)) : list (list F) := map (map t_tanh) x.

(** [shared_net] is [Sequential(Linear, Tanh, Linear, Tanh)]: the two
    linear layers sit at positions 0 and 2. *)
Record Policy_Network : Type := {
  shared_net_0 : Linear;
  shared_net_2 : Linear;
  policy_mean_net : Linear;
  policy_stddev_net : Linear
}.

Definition shared_net (self : Policy_Network) (x : list (list F))
  : result (list (list F)) :=
  h1 <- on_rows (linear (shared_net_0 self)) x ;;
  h2 <- on_rows (linear (shared_net_2 self)) (Tanh h1) ;;
  Ok (Tanh h2).

(** The positivity transform of [forward], [torch.log(1 + torch.exp(x))],
    on one entry. *)
Definition softplus (x : F) : F := t_log (s_add (of_Q 1) (t_exp x)).

(** [Policy_Network.forward]; [x.float()] is the identity on [F]. *)
Definition forward (self : Policy_Network) (x : list (list F))
  : result (list (list F) * list (list F)) :=
  shared_features <- shared_net self x ;;
  action_means <- on_rows (linear (policy_mean_net self)) shared_features ;;
  raw_stddevs <- on_rows (linear (policy_stddev_net self)) shared_features ;;
  let action_stddevs := map (map softplus) raw_stddevs in
  Ok (action_means, action_stddevs).

(** *** The parameters as the optimizer sees them

    [self.net.parameters()] hands the optimizer the weight and bias tensors
    in order; [optimizer.step()] overwrites their entries in place.
    [parameters] lists the entries, [load_parameters] writes a list of
    entries back into the tensors, whose shapes stay as they are. *)
Definition linear_parameters (l : Linear) : list F := concat (weight l) ++ bias l.

Definition parameters (self : Policy_Network) : list F :=
  linear_parameters (shared_net_0 self) ++ linear_parameters (shared_net_2 self)
  ++ linear_parameters (policy_mean_net self)
  ++ linear_parameters (policy_stddev_net self).

Fixpoint load_vector (old vals : list F) : list F * list F :=
  match old with
  | [] => ([], vals)
  | o :: old' =>
      match vals with
      | [] => (old, [])
      | v :: vals' =>
          let '(t, rest) := load_vector old' vals' in (v :: t, rest)
      end
  end.

Fixpoint load_matrix (old : list (list F)) (vals : list F)
  : list (list F) * list F :=
  match old with
  | [] => ([], vals)
  | row :: rows =>
      let '(r, vals1) := load_vector row vals in
      let '(m, vals2) := load_matrix rows vals1 in
      (r :: m, vals2)
  end.

Definition load_linear (l : Linear) (vals : list F) : Linear * list F :=
  let '(w, vals1) := load_matrix (weight l) vals in
  let '(b, vals2) := load_vector (bias l) vals1 in
  ({| in_features := in_features l; out_features := out_features l;
      weight := w; bias := b |}, vals2).

Definition load_parameters (self : Policy_Network) (vals : list F)
  : Policy_Network :=
  let '(l0, vals) := load_linear (shared_net_0 self) vals in
  let '(l2, vals) := load_linear (shared_net_2 self) vals in
  let '(lm, vals) := load_linear (policy_mean_net self) vals in
  let '(ls, _) := load_linear (policy_stddev_net self) vals in
  {| shared_net_0 := l0; shared_net_2 := l2;
     policy_mean_net := lm; policy_stddev_net := ls |}.

(** Shapes.  A layer is well shaped when its tensors have the sizes its
    constructor was given; a network is configured for
    [(obs_space_dims, action_space_dims)] when its layers have the sizes
    [Policy_Network.__init__] gives them. *)
Definition linear_shape (i o : nat) (l : Linear) : Prop :=
  in_features l = i /\ out_features l = o /\
  length (weight l) = o /\ length (bias l) = o /\
  Forall (fun row => length row = i) (weight l).

Definition hidden_space1 : nat := 16.
Definition hidden_space2 : nat := 32.

Definition network_shape (obs_space_dims action_space_dims : nat)
           (self : Policy_Network) : Prop :=
  linear_shape obs_space_dims hidden_space1 (shared_net_0 self) /\
  linear_shape hidden_space1 hidden_space2 (shared_net_2 self) /\
  linear_shape hidden_space2 action_space_dims (policy_mean_net self) /\
  linear_shape hidden_space2 action_space_dims (policy_stddev_net self).
End Network.

Arguments Linear F : clear implicits.
Arguments Policy_Network F : clear implicits.

(** ** What the notebook takes from torch *)

Class Torch (F : Type) : Type := {
  (* the global random generator *)
  Generator : Type;
  manual_seed : Z -> Generator;
  (* one entry of a freshly initialised weight or bias of a layer with the
     given fan-in (nn.Linear.reset_parameters) *)
  init_uniform : nat -> Generator -> F * Generator;
  (* one entry drawn from Normal(loc, scale), and the log-density of a value *)
  normal_sample : F -> F -> Generator -> F * Generator;
  normal_log_prob : F -> F -> F -> F;
  (* reverse-mode differentiation: the gradient of a scalar function of the
     parameters at a point *)
  gradient : (list F -> F) -> list F -> list F;
  (* torch.optim.AdamW: its state, its constructor from the parameters and
     the learning rate, and one step from the parameters and their gradient *)
  AdamW : Type;
  AdamW_new : list F -> F -> AdamW;
  AdamW_step : AdamW -> list F -> list F -> list F * AdamW
}.

(** ** The agent *)

Section Agent.
Context {F : Type} {SF : Scalar F} {EF : Elementary F} {CF : Comparison F}
        {TF : Torch F}.

(** *** Construction *)

Fixpoint init_vector (fan_in n : nat) (g : Generator) : list F * Generator :=
  match n with
  | O => ([], g)
  | S n' =>
      let '(x, g1) := init_uniform fan_in g in
      let '(xs, g2) := init_vector fan_in n' g1 in
      (x :: xs, g2)
  end.

Fixpoint init_matrix (fan_in rows cols : nat) (g : Generator)
  : list (list F) * Generator :=
  match rows with
  | O => ([], g)
  | S rows' =>
      let '(r, g1) := init_vector fan_in cols g in
      let '(m, g2) := init_matrix fan_in rows' cols g1 in
      (r :: m, g2)
  end.

(** [nn.Linear(i, o)]: the weight is drawn first, then the bias. *)
Definition Linear_new (i o : nat) (g : Generator) : Linear F * Generator :=
  let '(w, g1) := init_matrix i o i g in
  let '(b, g2) := init_vector i o g1 in
  ({| in_features := i; out_features := o; weight := w; bias := b |}, g2).

(** [Policy_Network.__init__] *)
Definition Policy_Network_new (obs_space_dims action_space_dims : nat)
           (g : Generator) : Policy_Network F * Generator :=
  let '(l0, g) := Linear_new obs_space_dims hidden_space1 g in
  let '(l2, g) := Linear_new hidden_space1 hidden_space2 g in
  let '(lm, g) := Linear_new hidden_space2 action_space_dims g in
  let '(ls, g) := Linear_new hidden_space2 action_space_dims g in
  ({| shared_net_0 := l0; shared_net_2 := l2;
      policy_mean_net := lm; policy_stddev_net := ls |}, g).

(** A tensor that takes part in differentiation: its entries, and how they
    are recomputed from the parameters of the network (its graph). *)
Record tensor : Type := {
  data : list F;
  grad_fn : Policy_Network F -> list F
}.

(** The same for a tensor with a single entry. *)
Record tensor0 : Type := {
  item : F;
  item_fn : Policy_Network F -> F
}.

Record REINFORCE : Type := {
  learning_rate : F;
  gamma : F;
  eps : F;
  probs : list tensor;
  rewards : list F;
  net : Policy_Network F;
  optimizer : AdamW
}.

(** [REINFORCE.__init__] *)
Definition REINFORCE_new (obs_space_dims action_space_dims : nat)
           (g : Generator) : REINFORCE * Generator :=
  let learning_rate := of_Q 1e-4 in
  let '(net, g') := Policy_Network_new obs_space_dims action_space_dims g in
  ({| learning_rate := learning_rate;
      gamma := of_Q 0.99;
      eps := of_Q 1e-6;
      probs := [];
      rewards := [];
      net := net;
      optimizer := AdamW_new (parameters net) learning_rate |}, g').

(** *** [sample_action] *)

(** [torch.distributions.constraints].  [real.check(value)] is
    [value == value], which only not-a-number fails; [positive] is
    [greater_than(0.)], whose check is [0. < value]. *)
Definition constraints_real (value : F) : bool := s_eqb value value.

Definition constraints_positive (value : F) : bool := s_ltb (of_Q 0) value.

Record Normal : Type := { loc : list F; scale : list F }.

(** [broadcast_all(loc, scale)] on two one-dimensional tensors: equal
    lengths pass, a tensor of one entry is expanded to the length of the
    other, anything else is a [RuntimeError]. *)
Definition broadcast_all (a b : list F) : result (list F * list F) :=
  if Nat.eqb (length a) (length b) then Ok (a, b)
  else match a, b with
       | [x], _ => Ok (repeat x (length b), b)
       | _, [y] => Ok (a, repeat y (length a))
       | _, _ => Error RuntimeError
       end.

(** [Distribution.__init__] with argument validation, which is on unless
    switched off: every entry of [loc] must pass [constraints.real] and every
    entry of [scale] [constraints.positive], or a [ValueError] is raised. *)
Definition validate_args (distrib : Normal) : result Normal :=
  if forallb constraints_real (loc distrib)
     && forallb constraints_positive (scale distrib)
  then Ok distrib
  else Error ValueError.

(** [Normal(loc, scale)] *)
Definition Normal_new (loc scale : list F) : result Normal :=
  ls <- broadcast_all loc scale ;;
  validate_args {| loc := fst ls; scale := snd ls |}.

Fixpoint sample_entries (ps : list (F * F)) (g : Generator)
  : list F * Generator :=
  match ps with
  | [] => ([], g)
  | (m, s) :: ps' =>
      let '(a, g1) := normal_sample m s g in
      let '(acts, g2) := sample_entries ps' g1 in
      (a :: acts, g2)
  end.

Definition sample (distrib : Normal) (g : Generator) : list F * Generator :=
  sample_entries (combine (loc distrib) (scale distrib)) g.

(** The log-density of a value, entry by entry. *)
Definition log_density (distrib : Normal) (value : list F) : list F :=
  map (fun msv => normal_log_prob (fst (fst msv)) (snd (fst msv)) (snd msv))
      (combine (combine (loc distrib) (scale distrib)) value).

(** [distrib.log_prob(value)]: the value is first checked against the
    support of the distribution, [constraints.real], and a [ValueError] is
    raised if an entry fails.  (The value [sample_action] passes is the one
    just drawn, which has the shape of the distribution.) *)
Definition log_prob (distrib : Normal) (value : list F) : result (list F) :=
  if forallb constraints_real value
  then Ok (log_density distrib value)
  else Error ValueError.

(** [t[0]] on a batch. *)
Definition index0 {A : Type} (t : list A) : result A :=
  match t with
  | [] => Error IndexError
  | r :: _ => Ok r
  end.

(** The two arguments [sample_action] hands to [Normal], after the state has
    been wrapped: [action_means[0] + self.eps] and
    [action_stddevs[0] + self.eps]. *)
Definition Normal_arguments (eps : F) (net : Policy_Network F)
           (state : list (list F)) : result (list F * list F) :=
  ms <- forward net state ;;
  let '(action_means, action_stddevs) := ms in
  m0 <- index0 action_means ;;
  s0 <- index0 action_stddevs ;;
  Ok (map (fun m => s_add m eps) m0, map (fun s => s_add s eps) s0).

(** The distribution of the action under a network: [Normal] of these
    arguments. *)
Definition policy_distribution (eps : F) (net : Policy_Network F)
           (state : list (list F)) : result Normal :=
  args <- Normal_arguments eps net state ;;
  Normal_new (fst args) (snd args).

(** The graph of the logged log-probability: how its entries are computed
    from the parameters of the network.  The checks of [Normal] are no part
    of it. *)
Definition log_prob_graph (eps : F) (state : list (list F)) (action : list F)
           (net : Policy_Network F) : list F :=
  match Normal_arguments eps net state with
  | Ok args =>
      match broadcast_all (fst args) (snd args) with
      | Ok ls => log_density {| loc := fst ls; scale := snd ls |} action
      | Error _ => []
      end
  | Error _ => []
  end.

Definition set_probs (self : REINFORCE) (ps : list tensor) : REINFORCE :=
  {| learning_rate := learning_rate self; gamma := gamma self; eps := eps self;
     probs := ps; rewards := rewards self;
     net := net self; optimizer := optimizer self |}.

Definition sample_action (self : REINFORCE) (state : list F) (g : Generator)
  : result (list F * REINFORCE * Generator) :=
  let state := [state] in
  distrib <- policy_distribution (eps self) (net self) state ;;
  let '(action, g') := sample distrib g in
  logp <- log_prob distrib action ;;
  let prob :=
    {| data := logp;
       grad_fn := log_prob_graph (eps self) state action |} in
  Ok (action, set_probs self (probs self ++ [prob]), g').

(** The driver's [agent.rewards.append(reward)]. *)
Definition append_reward (self : REINFORCE) (reward : F) : REINFORCE :=
  {| learning_rate := learning_rate self; gamma := gamma self; eps := eps self;
     probs := probs self; rewards := rewards self ++ [reward];
     net := net self; optimizer := optimizer self |}.

(** *** [update] *)

(** [log_prob.mean()] *)
Definition mean (t : tensor) : tensor0 :=
  {| item := t_mean (data t); item_fn := fun n => t_mean (grad_fn t n) |}.

(** [t * c] for a number [c] *)
Definition times (t : tensor0) (c : F) : tensor0 :=
  {| item := s_mul (item t) c; item_fn := fun n => s_mul (item_fn t n) c |}.

(** The variable [loss] starts as the Python integer 0 and becomes a tensor
    with the first [+=]. *)
Inductive pyvalue : Type :=
| PyInt (z : Z)
| PyTensor (t : tensor0).

(** [loss += t].  An integer on the left leaves the addition to the tensor
    ([t.__radd__(z)], that is [t + z]). *)
Definition iadd (loss : pyvalue) (t : tensor0) : pyvalue :=
  match loss with
  | PyInt z =>
      PyTensor {| item := s_add (item t) (of_Q (inject_Z z));
                  item_fn := fun n => s_add (item_fn t n) (of_Q (inject_Z z)) |}
  | PyTensor l =>
      PyTensor {| item := s_add (item l) (item t);
                  item_fn := fun n => s_add (item_fn l n) (item_fn t n) |}
  end.

(** The number a Python value holds. *)
Definition py_item (v : pyvalue) : F :=
  match v with
  | PyInt z => of_Q (inject_Z z)
  | PyTensor t => item t
  end.

(** The second loop of [update]:
<<
    loss = 0
    for log_prob, delta in zip(self.probs, deltas):
        loss += log_prob.mean() * delta * (-1)
>> *)
Definition loss_step (loss : pyvalue) (pd : tensor * F) : pyvalue :=
  iadd loss (times (times (mean (fst pd)) (snd pd)) (of_Q (-1))).

Definition update_loss (probs : list tensor) (deltas : list F) : pyvalue :=
  fold_left loss_step (combine probs deltas) (PyInt 0).

(** [update].  [zero_grad()] only resets the gradient fields, which the
    following [backward()] fills before they are read.  [backward] is a
    method of tensors: on the integer [0] the attribute lookup fails. *)
Definition update (self : REINFORCE) : result REINFORCE :=
  let gs := discounted_returns (gamma self) (rewards self) in
  let deltas := gs in
  let loss := update_loss (probs self) deltas in
  match loss with
  | PyInt _ => Error AttributeError
  | PyTensor l =>
      let theta := parameters (net self) in
      let grads :=
        gradient (fun th => item_fn l (load_parameters (net self) th)) theta in
      let '(theta', optimizer') := AdamW_step (optimizer self) theta grads in
      Ok {| learning_rate := learning_rate self;
            gamma := gamma self;
            eps := eps self;
            probs := [];
            rewards := [];
            net := load_parameters (net self) theta';
            optimizer := optimizer' |}
  end.

(** The agents of a run configured with
    [(obs_space_dims, action_space_dims)]: the one the constructor returns,
    and every agent a call of [sample_action], a reward appended by the
    driver, or a call of [update] leads to. *)
Inductive configured (obs_space_dims action_space_dims : nat)
  : REINFORCE -> Prop :=
| configured_new (g : Generator) :
    configured obs_space_dims action_space_dims
               (fst (REINFORCE_new obs_space_dims action_space_dims g))
| configured_sample_action self state g action self' g' :
    configured obs_space_dims action_space_dims self ->
    sample_action self state g = Ok (action, self', g') ->
    configured obs_space_dims action_space_dims self'
| configured_append_reward self reward :
    configured obs_space_dims action_space_dims self ->
    configured obs_space_dims action_space_dims (append_reward self reward)
| configured_update self self' :
    configured obs_space_dims action_space_dims self ->
    update self = Ok self' ->
    configured obs_space_dims action_space_dims self'.
End Agent.

(** ** Instances of the scalars *)

(** Exact rational arithmetic. *)
#[export] Instance Q_Scalar : Scalar Q :=
  {| of_Q := fun q => q; s_add := Qplus; s_mul := Qmult; s_div := Qdiv |}.

#[export] Instance Q_Comparison : Comparison Q :=
  {| s_eqb := Qeq_bool; s_ltb := fun a b => negb (Qle_bool b a) |}.

(** Real arithmetic: the formulas read as mathematics. *)
#[export] Instance R_Scalar : Scalar R :=
  {| of_Q := Q2R; s_add := Rplus; s_mul := Rmult; s_div := Rdiv |}.

#[export] Instance R_Elementary : Elementary R :=
  {| t_tanh := tanh; t_exp := exp; t_log := ln |}.

#[export] Instance R_Comparison : Comparison R :=
  {| s_eqb := fun a b => if Req_dec_T a b then true else false;
     s_ltb := fun a b => if Rlt_dec a b then true else false |}.

(** *** Single precision

    torch's default dtype, and the one [x.float()] converts to.  A value is
    not-a-number, an infinity or a real number; the result of an operation is
    the exact result rounded to the nearest binary32 number, ties to even
    (24 significant bits, least exponent -149, overflow to infinity).  The
    two zeros are not told apart. *)
Inductive f32 : Type :=
| F32_nan
| F32_inf (negative : bool)
| F32_fin (r : R).

Definition round_half_even (x : R) : Z :=
  let n := Zfloor x in
  let d := (x - IZR n)%R in
  if Rlt_dec d (1 / 2) then n
  else if Rlt_dec (1 / 2) d then (n + 1)%Z
  else if Z.even n then n else (n + 1)%Z.

(** The exponent of the last place of the binary32 numbers around [x]. *)
Definition f32_exponent (x : R) : Z :=
  Z.max (Zfloor (ln (Rabs x) / ln 2) - 23) (-149).

Definition f32_max : R := (IZR (2 ^ 24 - 1) * powerRZ 2 104)%R.

Definition is_negative (x : R) : bool := if Rlt_dec x 0 then true else false.

Definition is_zero (x : R) : bool := if Req_dec_T x 0 then true else false.

Definition round32 (x : R) : f32 :=
  let e := f32_exponent x in
  let y := (IZR (round_half_even (x * powerRZ 2 (- e))) * powerRZ 2 e)%R in
  if Rlt_dec f32_max (Rabs y) then F32_inf (is_negative y) else F32_fin y.

Definition f32_add (a b : f32) : f32 :=
  match a, b with
  | F32_nan, _ | _, F32_nan => F32_nan
  | F32_inf s, F32_inf s' => if Bool.eqb s s' then F32_inf s else F32_nan
  | F32_inf s, F32_fin _ | F32_fin _, F32_inf s => F32_inf s
  | F32_fin x, F32_fin y => round32 (x + y)
  end.

Definition f32_mul (a b : f32) : f32 :=
  match a, b with
  | F32_nan, _ | _, F32_nan => F32_nan
  | F32_inf s, F32_inf s' => F32_inf (xorb s s')
  | F32_inf s, F32_fin x | F32_fin x, F32_inf s =>
      if is_zero x then F32_nan else F32_inf (xorb s (is_negative x))
  | F32_fin x, F32_fin y => round32 (x * y)
  end.

Definition f32_div (a b : f32) : f32 :=
  match a, b with
  | F32_nan, _ | _, F32_nan => F32_nan
  | F32_inf _, F32_inf _ => F32_nan
  | F32_inf s, F32_fin y => F32_inf (xorb s (is_negative y))
  | F32_fin _, F32_inf _ => F32_fin 0
  | F32_fin x, F32_fin y =>
      if is_zero y
      then (if is_zero x then F32_nan else F32_inf (is_negative x))
      else round32 (x / y)
  end.

Definition f32_tanh (a : f32) : f32 :=
  match a with
  | F32_nan => F32_nan
  | F32_inf s => F32_fin (if s then -1 else 1)
  | F32_fin x => round32 (tanh x)
  end.

Definition f32_exp (a : f32) : f32 :=
  match a with
  | F32_nan => F32_nan
  | F32_inf true => F32_fin 0
  | F32_inf false => F32_inf false
  | F32_fin x => round32 (exp x)
  end.

Definition f32_log (a : f32) : f32 :=
  match a with
  | F32_nan => F32_nan
  | F32_inf true => F32_nan
  | F32_inf false => F32_inf false
  | F32_fin x =>
      if is_negative x then F32_nan
      else if is_zero x then F32_inf true
      else round32 (ln x)
  end.

#[export] Instance f32_Scalar : Scalar f32 :=
  {| of_Q := fun q => round32 (Q2R q);
     s_add := f32_add; s_mul := f32_mul; s_div := f32_div |}.

#[export] Instance f32_Elementary : Elementary f32 :=
  {| t_tanh := f32_tanh; t_exp := f32_exp; t_log := f32_log |}.

(** Comparisons: not-a-number equals nothing, itself included, and is
    neither below nor above anything. *)
Definition f32_eqb (a b : f32) : bool :=
  match a, b with
  | F32_fin x, F32_fin y => if Req_dec_T x y then true else false
  | F32_inf s, F32_inf s' => Bool.eqb s s'
  | _, _ => false
  end.

Definition f32_ltb (a b : f32) : bool :=
  match a, b with
  | F32_nan, _ | _, F32_nan => false
  | F32_inf s, F32_inf s' => s && negb s'
  | F32_inf s, F32_fin _ => s
  | F32_fin _, F32_inf s => negb s
  | F32_fin x, F32_fin y => if Rlt_dec x y then true else false
  end.

#[export] Instance f32_Comparison : Comparison f32 :=
  {| s_eqb := f32_eqb; s_ltb := f32_ltb |}.

(** What the documentation asks of a scale, and what holds of it. *)
Definition f32_positive_finite (s : f32) : Prop :=
  match s with
  | F32_fin r => (0 < r)%R
  | _ => False
  end.

Definition f32_nonnegative (s : f32) : Prop :=
  match s with
  | F32_nan => False
  | F32_inf negative => negative = false
  | F32_fin r => (0 <= r)%R
  end.

Definition f32_positive (s : f32) : Prop :=
  match s with
  | F32_nan => False
  | F32_inf negative => negative = false
  | F32_fin r => (0 < r)%R
  end.

(** ** A stand-in for torch

    Enough of the interface to run the model on concrete inputs: the
    generator is a counter, a draw returns the mean, gradients are zero and a
    step counts itself. *)
Definition fixture_torch (F : Type) {SF : Scalar F} : Torch F :=
  {| Generator := Z;
     manual_seed := fun seed => seed;
     init_uniform := fun _ g => (of_Q 0, Z.succ g);
     normal_sample := fun m _ g => (m, Z.succ g);
     normal_log_prob := fun _ _ _ => of_Q 0;
     gradient := fun _ theta => map (fun _ => of_Q 0) theta;
     AdamW := nat;
     AdamW_new := fun _ _ => O;
     AdamW_step := fun o theta _ => (theta, S o) |}.

Arguments fixture_torch F {SF}.

(** A log-probability given as a constant (it bypasses sampling). *)
Definition constant {F : Type} (xs : list F) : tensor :=
  {| data := xs; grad_fn := fun _ => xs |}.

(** An agent with the buffers replaced. *)
Definition with_buffers {F : Type} {TF : Torch F} (self : REINFORCE)
           (ps : list tensor) (rs : list F) : REINFORCE :=
  {| learning_rate := learning_rate self; gamma := gamma self; eps := eps self;
     probs := ps; rewards := rs; net := net self; optimizer := optimizer self |}.

(** A freshly constructed agent over the reals on the stand-in. *)
Definition fixture_agent (obs_space_dims action_space_dims : nat)
  : REINFORCE (TF := fixture_torch R) :=
  fst (REINFORCE_new (TF := fixture_torch R) obs_space_dims action_space_dims 0%Z).

(** The same in single precision. *)
Definition fixture_agent32 (obs_space_dims action_space_dims : nat)
  : REINFORCE (TF := fixture_torch f32) :=
  fst (REINFORCE_new (TF := fixture_torch f32) obs_space_dims action_space_dims 0%Z).

(** ** The formulas of the documentation, over the rationals *)

Fixpoint Qpow (x : Q) (n : nat) : Q :=
  match n with
  | O => 1
  | S n' => x * Qpow x n'
  end.

Definition Qsum (l : list Q) : Q := fold_right Qplus 0 l.

(** G_t = sum over k from t to T of gamma^(k-t) * r_k, steps counted from 0. *)
Definition return_to_go (gamma : Q) (rewards : list Q) (t : nat) : Q :=
  Qsum (map (fun k => Qpow gamma (k - t) * nth k rewards 0)
            (seq t (length rewards - t))).

(** The negative sum over t of p_t * G_t. *)
Definition negative_weighted_sum (ps Gs : list Q) : Q :=
  - Qsum (map (fun pg => fst pg * snd pg) (combine ps Gs)).

(** The sum of the absolute values of a row of weights. *)
Definition l1_norm (row : list R) : R :=
  fold_right (fun w acc => (Rabs w + acc)%R) 0%R row.

(** ** The environment, and the episode loop as the driver writes it

    [wrapped_env] is an object of gymnasium: the driver resets it, steps it
    with the sampled action and reads the observation, the reward and the two
    end-of-episode flags.  The loop
<<
      done = False
      while not done:
          action = agent.sample_action(obs)
          obs, reward, terminated, truncated, info = wrapped_env.step(action)
          agent.rewards.append(reward)
          done = terminated or truncated
>>
    runs its body before it tests [done]; [fuel] bounds the number of turns,
    and [None] is a loop that has not ended within it. *)
Class Env (F : Type) : Type := {
  env_state : Type;
  env_reset : Z -> env_state -> env_state * list F;
  env_step : list F -> env_state -> env_state * (list F * F * bool * bool)
}.

Section Driver.
Context {F : Type} {SF : Scalar F} {EF : Elementary F} {CF : Comparison F}
        {TF : Torch F} {EV : Env F}.

Fixpoint episode_loop (fuel : nat) (agent : REINFORCE) (g : Generator)
         (env : env_state) (obs : list F)
  : option (result (REINFORCE * Generator * env_state)) :=
  match fuel with
  | O => None
  | S fuel' =>
      match sample_action agent obs g with
      | Error e => Some (Error e)
      | Ok (action, agent1, g1) =>
          let '(env1, (obs1, reward, terminated, truncated)) :=
            env_step action env in
          let agent2 := append_reward agent1 reward in
          let done := orb terminated truncated in
          if done then Some (Ok (agent2, g1, env1))
          else episode_loop fuel' agent2 g1 env1 obs1
      end
  end.

(** The body of [for episode in range(total_num_episodes)], the bookkeeping
    of the printed statistics left out. *)
Definition driver_episode (fuel : nat) (seed : Z)
           (st : REINFORCE * Generator * env_state)
  : option (result (REINFORCE * Generator * env_state)) :=
  let '(agent, g, env) := st in
  let '(env0, obs) := env_reset seed env in
  match episode_loop fuel agent g env0 obs with
  | None => None
  | Some (Error e) => Some (Error e)
  | Some (Ok (agent1, g1, env1)) =>
      match update agent1 with
      | Error e => Some (Error e)
      | Ok agent2 => Some (Ok (agent2, g1, env1))
      end
  end.

(** [for episode in range(total_num_episodes)] *)
Fixpoint driver_episodes (fuel : nat) (seed : Z) (total_num_episodes : nat)
         (st : REINFORCE * Generator * env_state)
  : option (result (REINFORCE * Generator * env_state)) :=
  match total_num_episodes with
  | O => Some (Ok st)
  | S n =>
      match driver_episode fuel seed st with
      | Some (Ok st') => driver_episodes fuel seed n st'
      | stopped => stopped
      end
  end.

(** The body of [for seed in ...].  The generator and the environment are
    global state: the run finds them as whatever came before has left them.
    [torch.manual_seed(seed)] replaces the generator ahead of the
    construction of the agent.  ([random.seed] and [np.random.seed] set
    generators the agent never draws from; the lists of episode returns the
    driver keeps for the plot are left out.) *)
Definition driver_seed (fuel : nat)
           (obs_space_dims action_space_dims total_num_episodes : nat)
           (seed : Z) (before : Generator * env_state)
  : option (result (REINFORCE * Generator * env_state)) :=
  let '(_, env) := before in
  let g := manual_seed seed in
  let '(agent, g) := REINFORCE_new obs_space_dims action_space_dims g in
  driver_episodes fuel seed total_num_episodes (agent, g, env).

(** What went on in an episode loop that has ended: turn by turn the
    observation the agent was shown, the action [sample_action] returned for
    it and the reward [wrapped_env.step] paid for that action.  Each turn
    starts from the agent, the generator and the environment the turn before
    has left; the loop ends with the first turn after which the environment
    says so. *)
Inductive episode_trace :
  REINFORCE -> Generator -> env_state -> list F ->
  list (list F * list F * F) ->
  REINFORCE -> Generator -> env_state -> Prop :=
| episode_trace_last agent g env obs action agent1 g1
                     env1 obs1 reward terminated truncated :
    sample_action agent obs g = Ok (action, agent1, g1) ->
    env_step action env = (env1, (obs1, reward, terminated, truncated)) ->
    orb terminated truncated = true ->
    episode_trace agent g env obs [(obs, action, reward)]
                  (append_reward agent1 reward) g1 env1
| episode_trace_turn agent g env obs action agent1 g1
                     env1 obs1 reward terminated truncated
                     turns agent' g' env' :
    sample_action agent obs g = Ok (action, agent1, g1) ->
    env_step action env = (env1, (obs1, reward, terminated, truncated)) ->
    orb terminated truncated = false ->
    episode_trace (append_reward agent1 reward) g1 env1 obs1 turns
                  agent' g' env' ->
    episode_trace agent g env obs ((obs, action, reward) :: turns)
                  agent' g' env'.

(** An environment state from which every episode ends within [n] further
    steps after the next one, whatever the actions, and shows observations
    of [obs_space_dims] entries until it does. *)
Fixpoint ends_within (obs_space_dims n : nat) (env : env_state) : Prop :=
  forall action,
    let r := env_step action env in
    orb (snd (fst (snd r))) (snd (snd r)) = true \/
    match n with
    | O => False
    | S n' =>
        length (fst (fst (fst (snd r)))) = obs_space_dims /\
        ends_within obs_space_dims n' (fst r)
    end.

(** A network whose output [Normal] accepts at every observation of
    [obs_space_dims] entries, together with what is drawn from it. *)
Definition Normal_accepts (obs_space_dims : nat) (eps : F)
           (net : Policy_Network F) : Prop :=
  forall (state : list F) (g : Generator) (args : list F * list F),
    length state = obs_space_dims ->
    Normal_arguments eps net [state] = Ok args ->
    forallb constraints_real (fst args) = true /\
    forallb constraints_positive (snd args) = true /\
    forallb constraints_real
            (fst (sample {| loc := fst args; scale := snd args |} g)) = true.

(** Two outcomes of a run that agree in everything but what the
    environment is left with: both runs are cut short, or both raise the
    same exception, or both return, with the same agent (parameters and
    optimizer state included) and the same generator. *)
Definition same_run
           (r1 r2 : option (result (REINFORCE * Generator * env_state)))
  : Prop :=
  match r1, r2 with
  | None, None => True
  | Some (Error e1), Some (Error e2) => e1 = e2
  | Some (Ok (agent1, g1, _)), Some (Ok (agent2, g2, _)) =>
      agent1 = agent2 /\ g1 = g2
  | _, _ => False
  end.
End Driver.

(** An environment over the reals that shows the zero observation, pays 1
    per step and truncates the episode after [horizon] steps.  Like the
    statistics wrapper of the notebook it keeps a count of the episodes it
    was reset for, which nothing it shows depends on. *)
Definition countdown_env (obs_space_dims horizon : nat) : Env R :=
  {| env_state := nat * nat;
     env_reset := fun _ env =>
       ((horizon, S (snd env)), repeat 0%R obs_space_dims);
     env_step := fun _ env =>
       ((Nat.pred (fst env), snd env),
        (repeat 0%R obs_space_dims, 1%R, false, Nat.leb (fst env) 1)) |}.

(** * Proofs *)

(** ** The return loop *)

Section Returns.
Context {F : Type} {SF : Scalar F}.

Lemma returns_loop_cons (gamma r : F) (rs : list F) :
  returns_loop gamma (r :: rs) = returns_step gamma (returns_loop gamma rs) r.
Proof.
  unfold returns_loop. simpl rev. now rewrite fold_left_app.
Qed.

Lemma returns_loop_fst (gamma : F) (rs : list F) :
  fst (returns_loop gamma rs) = hd (of_Q 0) (snd (returns_loop gamma rs)).
Proof.
  destruct rs as [|r rs]; [reflexivity|].
  now rewrite returns_loop_cons.
Qed.

Lemma discounted_returns_nil (gamma : F) : discounted_returns gamma [] = [].
Proof. reflexivity. Qed.

Lemma discounted_returns_cons (gamma r : F) (rs : list F) :
  discounted_returns gamma (r :: rs) =
  s_add r (s_mul gamma (hd (of_Q 0) (discounted_returns gamma rs)))
  :: discounted_returns gamma rs.
Proof.
  unfold discounted_returns. rewrite returns_loop_cons.
  unfold returns_step. cbn [snd]. now rewrite returns_loop_fst.
Qed.

Lemma discounted_returns_length (gamma : F) (rs : list F) :
  length (discounted_returns gamma rs) = length rs.
Proof.
  induction rs as [|r rs IH]; [reflexivity|].
  rewrite discounted_returns_cons. cbn [length]. now rewrite IH.
Qed.
End Returns.

Section RationalReturns.
Open Scope Q_scope.

Lemma Qsum_scale (c : Q) (f : nat -> Q) (l : list nat) :
  Qsum (map (fun k => c * f k) l) == c * Qsum (map f l).
Proof.
  induction l as [|k l IH]; cbn [map Qsum fold_right].
  - ring.
  - fold (Qsum (map (fun k => c * f k) l)). fold (Qsum (map f l)).
    rewrite IH. ring.
Qed.

Lemma return_to_go_shift (gamma r : Q) (rs : list Q) (t : nat) :
  return_to_go gamma (r :: rs) (S t) = return_to_go gamma rs t.
Proof.
  unfold return_to_go. cbn [length Nat.sub].
  rewrite <- seq_shift, map_map. reflexivity.
Qed.

Lemma Qsum_ext (f g : nat -> Q) (l : list nat) :
  (forall k, f k == g k) -> Qsum (map f l) == Qsum (map g l).
Proof.
  intros E. induction l as [|k l IH]; cbn [map Qsum fold_right]; [reflexivity|].
  fold (Qsum (map f l)). fold (Qsum (map g l)). now rewrite IH, E.
Qed.

Lemma return_to_go_head (gamma r : Q) (rs : list Q) :
  return_to_go gamma (r :: rs) 0 == r + gamma * return_to_go gamma rs 0.
Proof.
  unfold return_to_go. cbn [length]. rewrite !Nat.sub_0_r.
  change (seq 0 (S (length rs))) with (0%nat :: seq 1 (length rs)).
  rewrite <- seq_shift, map_cons, map_map.
  change (Qsum (?x :: ?l)) with (x + Qsum l).
  rewrite <- Qsum_scale.
  rewrite (Qsum_ext (fun x => Qpow gamma (S x - 0) * nth (S x) (r :: rs) 0)
                    (fun k => gamma * (Qpow gamma (k - 0) * nth k rs 0))).
  - cbn [Nat.sub Qpow nth]. ring.
  - intros k. rewrite !Nat.sub_0_r. cbn [Qpow nth]. ring.
Qed.

Lemma discounted_returns_closed_form (gamma : Q) (rs : list Q) (t : nat) :
  nth t (discounted_returns gamma rs) 0 == return_to_go gamma rs t.
Proof.
  revert t. induction rs as [|r rs IH]; intros t.
  - rewrite discounted_returns_nil. destruct t; reflexivity.
  - rewrite discounted_returns_cons. destruct t as [|t].
    + cbn [nth s_add s_mul of_Q Q_Scalar].
      rewrite return_to_go_head, <- (IH 0%nat).
      destruct (discounted_returns gamma rs); cbn [hd nth]; reflexivity.
    + cbn [nth]. rewrite return_to_go_shift. apply IH.
Qed.

Lemma hd_nth0 (A : Type) (d : A) (l : list A) : hd d l = nth 0 l d.
Proof. now destruct l. Qed.

Lemma discounted_returns_step (gamma : Q) (rs : list Q) (t : nat) :
  (S t < length rs)%nat ->
  nth t (discounted_returns gamma rs) 0 ==
  nth t rs 0 + gamma * nth (S t) (discounted_returns gamma rs) 0.
Proof.
  revert t. induction rs as [|r rs IH]; intros t Ht; cbn [length] in Ht; [lia|].
  rewrite discounted_returns_cons. destruct t as [|t].
  - cbn [nth s_add s_mul of_Q Q_Scalar]. now rewrite hd_nth0.
  - cbn [nth]. apply IH. lia.
Qed.

Lemma discounted_returns_last (gamma : Q) (rs : list Q) (t : nat) :
  S t = length rs ->
  nth t (discounted_returns gamma rs) 0 == nth t rs 0.
Proof.
  revert t. induction rs as [|r rs IH]; intros t Ht; cbn [length] in Ht; [lia|].
  rewrite discounted_returns_cons. destruct t as [|t].
  - destruct rs; [|discriminate].
    rewrite discounted_returns_nil. cbn. ring.
  - cbn [nth]. apply IH. lia.
Qed.

(** C1.  For every discount factor and reward sequence, the returns [update]
    computes by its reverse scan [g <- r_t + gamma * g] are, step by step,
    G_t = sum over k >= t of gamma^(k-t) * r_k: one return per reward, the
    last one the last reward, each other one its reward plus gamma times the
    next return, nothing subtracted and nothing rescaled.  For the rewards
    [1, 1, 1] and gamma = 0.99 they are 2.9701, 1.99 and 1.0.  (Exact
    arithmetic; [discounted_returns_cons] is the recurrence for any
    arithmetic.) *)
Theorem update_discounted_returns :
  (forall (gamma : Q) (rewards : list Q),
      let G := discounted_returns gamma rewards in
      length G = length rewards /\
      (forall t, nth t G 0 == return_to_go gamma rewards t) /\
      (forall t, S t = length rewards -> nth t G 0 == nth t rewards 0) /\
      (forall t, (S t < length rewards)%nat ->
                 nth t G 0 == nth t rewards 0 + gamma * nth (S t) G 0))
  /\ Forall2 Qeq (discounted_returns 0.99 [1; 1; 1]) [2.9701; 1.99; 1.0].
Proof.
  split.
  - intros gamma rewards G. subst G. repeat split.
    + apply discounted_returns_length.
    + apply discounted_returns_closed_form.
    + apply discounted_returns_last.
    + apply discounted_returns_step.
  - repeat constructor; vm_compute; reflexivity.
Qed.
End RationalReturns.

(** ** The loss loop *)

Section Loss.
Context {F : Type} {SF : Scalar F}.


Lemma fold_loss_step_tensor (pds : list (@tensor F * F)) (l : tensor0) :
  exists l', fold_left loss_step pds (PyTensor l) = PyTensor l'.
Proof.
  revert l. induction pds as [|pd pds IH]; intros l; cbn [fold_left].
  - now exists l.
  - unfold loss_step at 2. cbn [iadd]. apply IH.
Qed.

Lemma update_loss_tensor (ps : list (@tensor F)) (ds : list F) :
  ps <> [] -> ds <> [] -> exists l, update_loss ps ds = PyTensor l.
Proof.
  intros Hp Hd. destruct ps as [|p ps]; [easy|]. destruct ds as [|d ds]; [easy|].
  unfold update_loss. cbn [combine fold_left]. unfold loss_step at 2. cbn [iadd].
  apply fold_loss_step_tensor.
Qed.

Lemma update_loss_int (ps : list (@tensor F)) (ds : list F) :
  ps = [] \/ ds = [] -> update_loss ps ds = PyInt 0.
Proof.
  intros [-> | ->]; [reflexivity|]. unfold update_loss. now destruct ps.
Qed.
End Loss.

Section RationalLoss.
Open Scope Q_scope.

Lemma fold_loss_step_item (pds : list (@tensor Q * Q)) (acc : pyvalue) :
  py_item (fold_left loss_step pds acc) ==
  py_item acc - Qsum (map (fun pd => t_mean (data (fst pd)) * snd pd) pds).
Proof.
  revert acc. induction pds as [|pd pds IH]; intros acc; cbn [fold_left map Qsum fold_right].
  - ring.
  - fold (Qsum (map (fun pd => t_mean (data (fst pd)) * snd pd) pds)).
    rewrite IH. destruct acc as [z|l]; cbn; ring.
Qed.

Lemma map_combine_means (ps : list (@tensor Q)) (ds : list Q) :
  map (fun pd => t_mean (data (fst pd)) * snd pd) (combine ps ds) =
  map (fun pg => fst pg * snd pg) (combine (map (fun p => t_mean (data p)) ps) ds).
Proof.
  revert ds. induction ps as [|p ps IH]; intros [|d ds]; cbn [combine map]; try reflexivity.
  now rewrite IH.
Qed.

Lemma update_loss_item (ps : list (@tensor Q)) (ds : list Q) :
  py_item (update_loss ps ds) ==
  negative_weighted_sum (map (fun p => t_mean (data p)) ps) ds.
Proof.
  unfold update_loss, negative_weighted_sum.
  rewrite fold_loss_step_item, map_combine_means. cbn. ring.
Qed.

Lemma t_mean_single (p : Q) : t_mean [p] == p.
Proof. cbv [t_mean t_sum fold_left length s_div s_add of_Q Q_Scalar]. cbn. field. Qed.

Lemma Qsum_combine_ext (ps ps' ds : list Q) :
  Forall2 Qeq ps ps' ->
  Qsum (map (fun pg => fst pg * snd pg) (combine ps ds)) ==
  Qsum (map (fun pg => fst pg * snd pg) (combine ps' ds)).
Proof.
  intros E. revert ds. induction E as [|p p' ps ps' Ep E IH]; intros ds; [reflexivity|].
  destruct ds as [|d ds]; [reflexivity|]. cbn [combine map Qsum fold_right fst snd].
  fold (Qsum (map (fun pg => fst pg * snd pg) (combine ps ds))).
  fold (Qsum (map (fun pg => fst pg * snd pg) (combine ps' ds))).
  now rewrite IH, Ep.
Qed.

Lemma means_of_constants (ps : list Q) :
  Forall2 Qeq (map (fun p => t_mean (data p)) (map (fun p => constant [p]) ps)) ps.
Proof.
  induction ps as [|p ps IH]; cbn [map]; constructor; [|exact IH].
  apply t_mean_single.
Qed.

(** C2.  For buffers of equal length, the loss [update] forms is the negative
    sum over t of p_t * G_t, where p_t is the mean of the t-th logged
    log-probability tensor (the entry itself when the tensor has a single
    entry).  For the log-probabilities [-0.5, -0.3, -0.7], the rewards
    [0, 0, 10] and gamma = 0.99 the loss is 14.8705.  (Exact arithmetic.) *)
Theorem update_loss_is_negative_weighted_sum :
  (forall (gamma : Q) (probs : list tensor) (rewards : list Q),
      length probs = length rewards ->
      py_item (update_loss probs (discounted_returns gamma rewards)) ==
      negative_weighted_sum (map (fun p => t_mean (data p)) probs)
                            (discounted_returns gamma rewards))
  /\ (forall (gamma : Q) (ps rewards : list Q),
      length ps = length rewards ->
      py_item (update_loss (map (fun p => constant [p]) ps)
                           (discounted_returns gamma rewards)) ==
      negative_weighted_sum ps (discounted_returns gamma rewards))
  /\ py_item (update_loss (map (fun p => constant [p]) [-0.5; -0.3; -0.7])
                          (discounted_returns 0.99 [0; 0; 10])) == 14.8705.
Proof.
  assert (A : forall (ps ds : list Q),
             py_item (update_loss (map (fun p => constant [p]) ps) ds) ==
             negative_weighted_sum ps ds).
  { intros ps ds. rewrite update_loss_item. unfold negative_weighted_sum.
    now rewrite (Qsum_combine_ext ds (means_of_constants ps)). }
  split; [|split].
  - intros gamma probs rewards _. apply update_loss_item.
  - intros gamma ps rewards _. apply A.
  - rewrite A. vm_compute. reflexivity.
Qed.
End RationalLoss.

(** ** Shapes through the network *)

Section Shapes.
Context {F : Type} {SF : Scalar F} {EF : Elementary F}.

Lemma linear_ok (i o : nat) (l : Linear F) (x : list F) :
  linear_shape i o l -> length x = i ->
  exists y, linear l x = Ok y /\ length y = o.
Proof.
  intros (Hi & _ & Hw & Hb & _) Hx. unfold linear.
  rewrite Hi, Hx, Nat.eqb_refl. eexists. split; [reflexivity|].
  rewrite length_map, length_combine, Hw, Hb. apply Nat.min_id.
Qed.

Lemma linear_mismatch (i o : nat) (l : Linear F) (x : list F) :
  linear_shape i o l -> length x <> i -> linear l x = Error RuntimeError.
Proof.
  intros (Hi & _) Hx. unfold linear. rewrite Hi.
  now apply Nat.eqb_neq in Hx as ->.
Qed.

Lemma linear_rows_ok (i o : nat) (l : Linear F) (x : list (list F)) :
  linear_shape i o l ->
  Forall (fun row => length row = i) x ->
  exists ys, on_rows (linear l) x = Ok ys /\
             Forall (fun row => length row = o) ys /\ length ys = length x.
Proof.
  intros Hl. induction 1 as [|r rows Hr _ (ys & E & HQ & Hlen)]; cbn [on_rows].
  - exists []. repeat split. constructor.
  - destruct (linear_ok r Hl Hr) as (y & Ey & Hy). rewrite Ey, E. cbn [bind].
    exists (y :: ys). repeat split; [now constructor | cbn [length]; now rewrite Hlen].
Qed.

Lemma on_rows_error (A B : Type) (f : A -> result B) (e : exn)
      (r : A) (rows : list A) :
  f r = Error e -> on_rows f (r :: rows) = Error e.
Proof. intros E. cbn [on_rows]. now rewrite E. Qed.

Lemma Tanh_rows (n : nat) (x : list (list F)) :
  Forall (fun row => length row = n) x ->
  Forall (fun row => length row = n) (Tanh x) /\ length (Tanh x) = length x.
Proof.
  intros Hx. unfold Tanh. split; [|apply length_map].
  apply Forall_map. revert Hx. apply Forall_impl. intros row <-. apply length_map.
Qed.

Lemma forward_ok (obs_space_dims action_space_dims : nat)
      (self : Policy_Network F) (x : list (list F)) :
  network_shape obs_space_dims action_space_dims self ->
  Forall (fun row => length row = obs_space_dims) x ->
  exists means stddevs,
    forward self x = Ok (means, stddevs) /\
    length means = length x /\ length stddevs = length x /\
    Forall (fun row => length row = action_space_dims) means /\
    Forall (fun row => length row = action_space_dims) stddevs.
Proof.
  intros (S0 & S2 & Sm & Ss) Hx. unfold forward, shared_net.
  destruct (linear_rows_ok S0 Hx) as (h1 & -> & Hh1 & L1).
  cbn [bind]. destruct (Tanh_rows Hh1) as (Ha1 & La1).
  destruct (linear_rows_ok S2 Ha1) as (h2 & -> & Hh2 & L2).
  cbn [bind]. destruct (Tanh_rows Hh2) as (Ha2 & La2).
  destruct (linear_rows_ok Sm Ha2) as (m & -> & Hm & Lm).
  destruct (linear_rows_ok Ss Ha2) as (s & -> & Hs & Ls).
  cbn [bind]. exists m, (map (map softplus) s). split; [reflexivity|].
  repeat split.
  - lia.
  - rewrite length_map. lia.
  - exact Hm.
  - apply Forall_map. revert Hs. apply Forall_impl. intros row <-. apply length_map.
Qed.

Lemma forward_mismatch (obs_space_dims action_space_dims : nat)
      (self : Policy_Network F) (x : list F) (xs : list (list F)) :
  network_shape obs_space_dims action_space_dims self ->
  length x <> obs_space_dims ->
  forward self (x :: xs) = Error RuntimeError.
Proof.
  intros (S0 & _) Hx. unfold forward, shared_net.
  cbn [on_rows]. now rewrite (linear_mismatch x S0 Hx).
Qed.

Lemma on_rows_linear_error (l : Linear F) (x : list (list F)) (e : exn) :
  on_rows (linear l) x = Error e -> e = RuntimeError.
Proof.
  induction x as [|r x IH]; cbn [on_rows]; [discriminate|].
  unfold linear at 1. destruct (Nat.eqb _ _); cbn [bind].
  - destruct (on_rows (linear l) x); cbn [bind]; [discriminate|].
    intros [= <-]. now apply IH.
  - now intros [= <-].
Qed.

Lemma forward_error (self : Policy_Network F) (x : list (list F)) (e : exn) :
  forward self x = Error e -> e = RuntimeError.
Proof.
  unfold forward, shared_net.
  destruct (on_rows (linear (shared_net_0 self)) x) as [h1|e1] eqn:E1; cbn [bind];
    [|intros [= <-]; exact (on_rows_linear_error _ _ E1)].
  destruct (on_rows (linear (shared_net_2 self)) (Tanh h1)) as [h2|e2] eqn:E2; cbn [bind];
    [|intros [= <-]; exact (on_rows_linear_error _ _ E2)].
  destruct (on_rows (linear (policy_mean_net self)) (Tanh h2)) as [m|e3] eqn:E3; cbn [bind];
    [|intros [= <-]; exact (on_rows_linear_error _ _ E3)].
  destruct (on_rows (linear (policy_stddev_net self)) (Tanh h2)) as [s|e4] eqn:E4; cbn [bind];
    [discriminate|intros [= <-]; exact (on_rows_linear_error _ _ E4)].
Qed.

(** A batch of one row gives one row of means and one of standard
    deviations, the latter the positivity transform of the raw outputs. *)
Lemma forward_one_row (self : Policy_Network F) (x : list F)
      (means stddevs : list (list F)) :
  forward self [x] = Ok (means, stddevs) ->
  exists m raw, means = [m] /\ stddevs = [map softplus raw].
Proof.
  unfold forward, shared_net. cbn [on_rows].
  destruct (linear (shared_net_0 self) x) as [h1|]; [|discriminate].
  cbn [bind Tanh map on_rows].
  destruct (linear (shared_net_2 self) (map t_tanh h1)) as [h2|]; [|discriminate].
  cbn [bind Tanh map on_rows].
  destruct (linear (policy_mean_net self) (map t_tanh h2)) as [m0|]; [|discriminate].
  destruct (linear (policy_stddev_net self) (map t_tanh h2)) as [s0|]; [|discriminate].
  cbn [bind map]. intros [= <- <-]. now exists m0, s0.
Qed.

Lemma load_vector_length (old vals : list F) :
  length (fst (load_vector old vals)) = length old.
Proof.
  revert vals. induction old as [|o old IH]; intros vals; [reflexivity|].
  destruct vals as [|v vals]; [reflexivity|]. cbn [load_vector].
  specialize (IH vals). destruct (load_vector old vals). cbn [fst length] in *.
  now rewrite IH.
Qed.

Lemma load_matrix_shape (n : nat) (old : list (list F)) (vals : list F) :
  Forall (fun row => length row = n) old ->
  length (fst (load_matrix old vals)) = length old /\
  Forall (fun row => length row = n) (fst (load_matrix old vals)).
Proof.
  intros Hold. revert vals.
  induction Hold as [|row rows Hrow _ IH]; intros vals; cbn [load_matrix].
  - split; [reflexivity | constructor].
  - pose proof (load_vector_length row vals) as Hr.
    destruct (load_vector row vals) as [r vals1]. destruct (IH vals1) as [Hl Hf].
    destruct (load_matrix rows vals1) as [m vals2]. cbn [fst length] in *.
    split; [now rewrite Hl | constructor; [congruence | exact Hf]].
Qed.

Lemma load_linear_shape (i o : nat) (l : Linear F) (vals : list F) :
  linear_shape i o l -> linear_shape i o (fst (load_linear l vals)).
Proof.
  intros (Hi & Ho & Hw & Hb & Hrows). unfold load_linear.
  destruct (load_matrix_shape vals Hrows) as [Hl Hf].
  destruct (load_matrix (weight l) vals) as [w vals1].
  pose proof (load_vector_length (bias l) vals1) as Hlb.
  destruct (load_vector (bias l) vals1) as [b vals2]. cbn [fst] in *.
  repeat split; cbn; congruence.
Qed.

Lemma load_parameters_shape (obs_space_dims action_space_dims : nat)
      (self : Policy_Network F) (vals : list F) :
  network_shape obs_space_dims action_space_dims self ->
  network_shape obs_space_dims action_space_dims (load_parameters self vals).
Proof.
  intros (S0 & S2 & Sm & Ss). unfold load_parameters.
  pose proof (load_linear_shape vals S0) as T0.
  destruct (load_linear (shared_net_0 self) vals) as [l0 v0].
  pose proof (load_linear_shape v0 S2) as T2.
  destruct (load_linear (shared_net_2 self) v0) as [l2 v2].
  pose proof (load_linear_shape v2 Sm) as Tm.
  destruct (load_linear (policy_mean_net self) v2) as [lm vm].
  pose proof (load_linear_shape vm Ss) as Ts.
  destruct (load_linear (policy_stddev_net self) vm) as [ls vs].
  cbn [fst] in *. exact (conj T0 (conj T2 (conj Tm Ts))).
Qed.
End Shapes.

(** ** The agent *)

Section AgentFacts.
Context {F : Type} {SF : Scalar F} {EF : Elementary F} {CF : Comparison F}
        {TF : Torch F}.

Lemma init_vector_length (fan_in n : nat) (g : Generator) :
  length (fst (init_vector fan_in n g)) = n.
Proof.
  revert g. induction n as [|n IH]; intros g; cbn [init_vector]; [reflexivity|].
  destruct (init_uniform fan_in g) as [x g1]. specialize (IH g1).
  destruct (init_vector fan_in n g1). cbn [fst length] in *. now rewrite IH.
Qed.

Lemma init_matrix_shape (fan_in rows cols : nat) (g : Generator) :
  length (fst (init_matrix fan_in rows cols g)) = rows /\
  Forall (fun row => length row = cols) (fst (init_matrix fan_in rows cols g)).
Proof.
  revert g. induction rows as [|rows IH]; intros g; cbn [init_matrix].
  - split; [reflexivity | constructor].
  - pose proof (init_vector_length fan_in cols g) as Hr.
    destruct (init_vector fan_in cols g) as [r g1]. destruct (IH g1) as [Hl Hf].
    destruct (init_matrix fan_in rows cols g1). cbn [fst length] in *.
    split; [now rewrite Hl | now constructor].
Qed.

Lemma Linear_new_shape (i o : nat) (g : Generator) :
  linear_shape i o (fst (Linear_new i o g)).
Proof.
  unfold Linear_new. destruct (init_matrix_shape i o i g) as [Hl Hf].
  destruct (init_matrix i o i g) as [w g1].
  pose proof (init_vector_length i o g1) as Hb.
  destruct (init_vector i o g1) as [b g2]. cbn [fst] in *.
  repeat split; cbn; assumption.
Qed.

Lemma Policy_Network_new_shape (obs_space_dims action_space_dims : nat)
      (g : Generator) :
  network_shape obs_space_dims action_space_dims
                (fst (Policy_Network_new obs_space_dims action_space_dims g)).
Proof.
  unfold Policy_Network_new.
  pose proof (Linear_new_shape obs_space_dims hidden_space1 g) as T0.
  destruct (Linear_new obs_space_dims hidden_space1 g) as [l0 g0].
  pose proof (Linear_new_shape hidden_space1 hidden_space2 g0) as T2.
  destruct (Linear_new hidden_space1 hidden_space2 g0) as [l2 g2].
  pose proof (Linear_new_shape hidden_space2 action_space_dims g2) as Tm.
  destruct (Linear_new hidden_space2 action_space_dims g2) as [lm gm].
  pose proof (Linear_new_shape hidden_space2 action_space_dims gm) as Ts.
  destruct (Linear_new hidden_space2 action_space_dims gm) as [ls gs].
  cbn [fst] in *. exact (conj T0 (conj T2 (conj Tm Ts))).
Qed.

Lemma REINFORCE_new_fields (obs_space_dims action_space_dims : nat)
      (g : Generator) :
  let self := fst (REINFORCE_new obs_space_dims action_space_dims g) in
  probs self = [] /\ rewards self = [] /\
  net self = fst (Policy_Network_new obs_space_dims action_space_dims g).
Proof.
  cbv zeta. unfold REINFORCE_new.
  destruct (Policy_Network_new obs_space_dims action_space_dims g).
  repeat split.
Qed.

Lemma sample_entries_length (ps : list (F * F)) (g : Generator) :
  length (fst (sample_entries ps g)) = length ps.
Proof.
  revert g. induction ps as [|[m s] ps IH]; intros g; cbn [sample_entries]; [reflexivity|].
  destruct (normal_sample m s g) as [a g1]. specialize (IH g1).
  destruct (sample_entries ps g1). cbn [fst length] in *. now rewrite IH.
Qed.

Lemma sample_length (distrib : Normal) (g : Generator) :
  length (loc distrib) = length (scale distrib) ->
  length (fst (sample distrib g)) = length (loc distrib).
Proof.
  intros E. unfold sample. rewrite sample_entries_length, length_combine, <- E.
  apply Nat.min_id.
Qed.

Lemma broadcast_all_same (a b : list F) :
  length a = length b -> broadcast_all a b = Ok (a, b).
Proof. intros E. unfold broadcast_all. now rewrite E, Nat.eqb_refl. Qed.

Lemma broadcast_all_error (a b : list F) (e : exn) :
  broadcast_all a b = Error e -> e = RuntimeError.
Proof.
  unfold broadcast_all. destruct (Nat.eqb _ _); [discriminate|].
  destruct a as [|x [|x' a]]; destruct b as [|y [|y' b]];
    try discriminate; now intros [= <-].
Qed.

Lemma Normal_arguments_ok (obs_space_dims action_space_dims : nat)
      (e : F) (n : Policy_Network F) (state : list F) :
  network_shape obs_space_dims action_space_dims n ->
  length state = obs_space_dims ->
  exists means stddevs,
    forward n [state] = Ok ([means], [stddevs]) /\
    length means = action_space_dims /\ length stddevs = action_space_dims /\
    Normal_arguments e n [state]
    = Ok (map (fun m => s_add m e) means, map (fun s => s_add s e) stddevs).
Proof.
  intros Hn Hs. unfold Normal_arguments.
  destruct (@forward_ok _ _ _ _ _ n [state] Hn) as (m & s & E & Lm & Ls & Hm & Hsd).
  { now constructor. }
  rewrite E. destruct m as [|m0 [|? ?]]; try discriminate.
  destruct s as [|s0 [|? ?]]; try discriminate.
  inversion Hm; inversion Hsd; subst.
  exists m0, s0. now repeat split.
Qed.

Lemma Normal_arguments_inv (e : F) (n : Policy_Network F) (state : list F)
      (args : list F * list F) :
  Normal_arguments e n [state] = Ok args ->
  exists means raw,
    forward n [state] = Ok ([means], [map softplus raw]) /\
    args = (map (fun m => s_add m e) means,
            map (fun s => s_add s e) (map softplus raw)).
Proof.
  unfold Normal_arguments.
  destruct (forward n [state]) as [[m s]|] eqn:E; [|discriminate].
  destruct (forward_one_row _ _ E) as (m0 & raw & -> & ->).
  cbn [bind index0]. intros [= <-]. now exists m0, raw.
Qed.

Lemma Normal_arguments_error (e : F) (n : Policy_Network F) (state : list F)
      (er : exn) :
  Normal_arguments e n [state] = Error er -> er = RuntimeError.
Proof.
  unfold Normal_arguments.
  destruct (forward n [state]) as [[m s]|e0] eqn:E; cbn [bind].
  - destruct (forward_one_row _ _ E) as (m0 & raw & -> & ->). discriminate.
  - intros [= <-]. exact (forward_error _ _ E).
Qed.

(** What a call of [sample_action] that returns has done. *)
Lemma sample_action_inv (self : REINFORCE) (state : list F) (g : Generator)
      (action : list F) (self' : REINFORCE) (g' : Generator) :
  sample_action self state g = Ok (action, self', g') ->
  exists d prob,
    policy_distribution (eps self) (net self) [state] = Ok d /\
    sample d g = (action, g') /\
    log_prob d action = Ok (data prob) /\
    grad_fn prob = log_prob_graph (eps self) [state] action /\
    self' = set_probs self (probs self ++ [prob]).
Proof.
  unfold sample_action.
  destruct (policy_distribution (eps self) (net self) [state]) as [d|e]; [|discriminate].
  cbn [bind]. destruct (sample d g) as [a g1] eqn:Es.
  destruct (log_prob d a) as [lp|] eqn:El; [|discriminate].
  cbn [bind]. intros [= <- <- <-].
  exists d, {| data := lp; grad_fn := log_prob_graph (eps self) [state] a |}.
  split; [reflexivity|]. split; [exact Es|].
  split; [exact El|]. split; reflexivity.
Qed.

(** What [sample_action] does on a network of the configured sizes and a
    state of the right length: everything up to the checks of [Normal], and
    the two ways the checks can go. *)
Lemma sample_action_cases (obs_space_dims action_space_dims : nat)
      (self : REINFORCE) (state : list F) (g : Generator) :
  network_shape obs_space_dims action_space_dims (net self) ->
  length state = obs_space_dims ->
  exists means stddevs,
    forward (net self) [state] = Ok ([means], [stddevs]) /\
    length means = action_space_dims /\ length stddevs = action_space_dims /\
    let distrib := {| loc := map (fun m => s_add m (eps self)) means;
                      scale := map (fun s => s_add s (eps self)) stddevs |} in
    let action := fst (sample distrib g) in
    Normal_arguments (eps self) (net self) [state]
    = Ok (loc distrib, scale distrib) /\
    length action = action_space_dims /\
    if forallb constraints_real (loc distrib)
       && forallb constraints_positive (scale distrib)
       && forallb constraints_real action
    then sample_action self state g
         = Ok (action,
               set_probs self
                 (probs self ++
                  [{| data := log_density distrib action;
                      grad_fn := log_prob_graph (eps self) [state] action |}]),
               snd (sample distrib g))
    else sample_action self state g = Error ValueError.
Proof.
  intros Hn Hs.
  destruct (Normal_arguments_ok (eps self) state Hn Hs)
    as (means & stddevs & Ef & Lm & Ls & Ea).
  exists means, stddevs. split; [exact Ef|]. split; [exact Lm|]. split; [exact Ls|].
  cbv zeta. split; [exact Ea|]. split.
  { rewrite sample_length; cbn [loc scale]; rewrite !length_map; congruence. }
  unfold sample_action, policy_distribution, Normal_new. rewrite Ea.
  cbn [bind fst snd]. rewrite broadcast_all_same by (rewrite !length_map; congruence).
  cbn [bind fst snd]. unfold validate_args. cbn [loc scale].
  destruct (forallb constraints_real (map (fun m => s_add m (eps self)) means)
            && forallb constraints_positive
                       (map (fun s => s_add s (eps self)) stddevs));
    cbn [bind andb]; [|reflexivity].
  destruct (sample _ g) as [a g1]. cbn [fst snd]. unfold log_prob.
  destruct (forallb constraints_real a); reflexivity.
Qed.

Lemma sample_action_error (self : REINFORCE) (state : list F) (g : Generator)
      (e : exn) :
  sample_action self state g = Error e -> e = RuntimeError \/ e = ValueError.
Proof.
  unfold sample_action, policy_distribution, Normal_new.
  destruct (Normal_arguments (eps self) (net self) [state]) as [args|e0] eqn:Ea;
    cbn [bind]; [|intros [= <-]; left; exact (Normal_arguments_error _ _ _ Ea)].
  destruct (broadcast_all (fst args) (snd args)) as [ls|e0] eqn:Eb;
    cbn [bind]; [|intros [= <-]; left; exact (broadcast_all_error _ _ Eb)].
  unfold validate_args. destruct (_ && _); cbn [bind]; [|intros [= <-]; now right].
  destruct (sample _ g) as [a g1]. unfold log_prob.
  destruct (forallb constraints_real a); cbn [bind]; [discriminate|].
  intros [= <-]. now right.
Qed.

Lemma sample_action_mismatch (obs_space_dims action_space_dims : nat)
      (self : REINFORCE) (state : list F) (g : Generator) :
  network_shape obs_space_dims action_space_dims (net self) ->
  length state <> obs_space_dims ->
  sample_action self state g = Error RuntimeError.
Proof.
  intros Hn Hs. unfold sample_action, policy_distribution, Normal_arguments.
  now rewrite (@forward_mismatch _ _ _ _ _ _ state [] Hn Hs).
Qed.

(** What [update] does when both buffers hold an entry. *)
Lemma update_ok (self : REINFORCE) :
  probs self <> [] -> rewards self <> [] ->
  exists l,
    update_loss (probs self) (discounted_returns (gamma self) (rewards self))
    = PyTensor l /\
    let theta := parameters (net self) in
    let step :=
      AdamW_step (optimizer self) theta
        (gradient (fun th => item_fn l (load_parameters (net self) th)) theta) in
    update self =
    Ok {| learning_rate := learning_rate self; gamma := gamma self;
          eps := eps self; probs := []; rewards := [];
          net := load_parameters (net self) (fst step);
          optimizer := snd step |}.
Proof.
  intros Hp Hr.
  assert (Hg : discounted_returns (gamma self) (rewards self) <> []).
  { intros E. apply (f_equal (@length F)) in E.
    rewrite discounted_returns_length in E. now destruct (rewards self). }
  destruct (update_loss_tensor Hp Hg) as (l & El). exists l. split; [exact El|].
  cbv zeta. unfold update. rewrite El.
  now destruct (AdamW_step _ _ _).
Qed.

Lemma update_empty (self : REINFORCE) :
  probs self = [] \/ rewards self = [] -> update self = Error AttributeError.
Proof.
  intros E. unfold update. rewrite update_loss_int; [reflexivity|].
  destruct E as [E|E]; [now left | right]. now rewrite E.
Qed.

(** What a call of [update] that returns has done. *)
Lemma update_inv (self self' : REINFORCE) :
  update self = Ok self' ->
  probs self' = [] /\ rewards self' = [] /\
  learning_rate self' = learning_rate self /\ gamma self' = gamma self /\
  eps self' = eps self /\
  exists theta', net self' = load_parameters (net self) theta'.
Proof.
  unfold update. destruct (update_loss _ _) as [z|l]; [discriminate|].
  destruct (AdamW_step _ _ _) as [theta' o']. intros [= <-]. cbn.
  repeat split. now exists theta'.
Qed.

Lemma configured_shape (obs_space_dims action_space_dims : nat)
      (self : REINFORCE) :
  configured obs_space_dims action_space_dims self ->
  network_shape obs_space_dims action_space_dims (net self).
Proof.
  induction 1 as [g | self state g action self' g' _ IH E | self reward _ IH
                  | self self' _ IH E].
  - destruct (REINFORCE_new_fields obs_space_dims action_space_dims g) as (_ & _ & ->).
    apply Policy_Network_new_shape.
  - apply sample_action_inv in E as (d & prob & _ & _ & _ & _ & ->). exact IH.
  - exact IH.
  - apply update_inv in E as (_ & _ & _ & _ & _ & theta' & ->).
    now apply load_parameters_shape.
Qed.
Lemma configured_eps (obs_space_dims action_space_dims : nat)
      (self : REINFORCE) :
  configured obs_space_dims action_space_dims self -> eps self = of_Q 1e-6.
Proof.
  induction 1 as [g | self state g action self' g' _ IH E | self reward _ IH
                  | self self' _ IH E].
  - unfold REINFORCE_new.
    now destruct (Policy_Network_new obs_space_dims action_space_dims g).
  - apply sample_action_inv in E as (d & prob & _ & _ & _ & _ & ->). exact IH.
  - exact IH.
  - apply update_inv in E as (_ & _ & _ & _ & -> & _). exact IH.
Qed.
End AgentFacts.

(** ** What the documentation says of the agent *)

Section AgentProperties.
Context {F : Type} {SF : Scalar F} {EF : Elementary F} {CF : Comparison F}
        {TF : Torch F}.

(** C3, as the code has it.  Called with both buffers empty, [update] raises
    [AttributeError]: the loss is still the integer 0 when [backward] is
    looked up on it.  No optimizer step is taken. *)
Theorem update_on_empty_buffers (self : REINFORCE) :
  probs self = [] -> rewards self = [] ->
  update self = Error AttributeError.
Proof. intros Hp _. apply update_empty. now left. Qed.

(** C4.  Whatever the buffers held, after [update] has returned both are
    empty; and [update] does return whenever each buffer holds at least one
    entry. *)
Theorem update_clears_buffers (self : REINFORCE) :
  (probs self <> [] -> rewards self <> [] -> exists self', update self = Ok self')
  /\ (forall self', update self = Ok self' ->
                    length (probs self') = 0%nat /\ length (rewards self') = 0%nat).
Proof.
  split.
  - intros Hp Hr. destruct (update_ok self Hp Hr) as (l & _ & E).
    eexists. exact E.
  - intros self' E. apply update_inv in E as (-> & -> & _). now split.
Qed.

(** C7, as the code has it.  For an agent configured with
    [(obs_space_dims, action_space_dims)] and an observation of
    [obs_space_dims] entries, the network gives [action_space_dims] means and
    as many standard deviations, and the action drawn from them has exactly
    [action_space_dims] entries.  [sample_action] returns that action if the
    checks of [Normal] pass: no mean plus [eps] is not-a-number, every
    standard deviation plus [eps] is greater than 0 and no entry drawn is
    not-a-number.  If one of them fails it raises [ValueError] instead.  So
    every action [sample_action] returns has [action_space_dims] entries,
    and [ValueError] is the only exception it raises on such an
    observation. *)
Theorem sample_action_shape (obs_space_dims action_space_dims : nat)
        (self : REINFORCE) (state : list F) (g : Generator) :
  configured obs_space_dims action_space_dims self ->
  length state = obs_space_dims ->
  (exists means stddevs,
      forward (net self) [state] = Ok ([means], [stddevs]) /\
      let distrib := {| loc := map (fun m => s_add m (eps self)) means;
                        scale := map (fun s => s_add s (eps self)) stddevs |} in
      let action := fst (sample distrib g) in
      length action = action_space_dims /\
      if forallb constraints_real (loc distrib)
         && forallb constraints_positive (scale distrib)
         && forallb constraints_real action
      then exists self',
          sample_action self state g = Ok (action, self', snd (sample distrib g))
      else sample_action self state g = Error ValueError)
  /\ (forall action self' g',
        sample_action self state g = Ok (action, self', g') ->
        length action = action_space_dims)
  /\ (forall e, sample_action self state g = Error e -> e = ValueError).
Proof.
  intros Hc Hs. apply configured_shape in Hc.
  destruct (sample_action_cases self state g Hc Hs)
    as (means & stddevs & Ef & _ & _ & H). cbv zeta in H.
  destruct H as (_ & Hl & H).
  split; [|split].
  - exists means, stddevs. split; [exact Ef|]. cbv zeta. split; [exact Hl|].
    destruct (_ && _); [|exact H]. eexists. exact H.
  - intros action self' g' E. destruct (_ && _); rewrite H in E; [|discriminate E].
    injection E as <- _ _. exact Hl.
  - intros e E. destruct (_ && _); rewrite H in E; [discriminate E|].
    now injection E as <-.
Qed.

(** C8.  A call of [sample_action] appends exactly one entry to the
    log-probability buffer and leaves the rewards, the three
    hyperparameters, the network and the optimizer as they were.  It does
    not read the rewards either: with any other rewards in the buffer it
    returns the same action, logs the same entry and leaves the same
    generator. *)
Theorem sample_action_frame (self : REINFORCE) (state : list F) (g : Generator)
        (action : list F) (self' : REINFORCE) (g' : Generator) :
  sample_action self state g = Ok (action, self', g') ->
  (exists prob, probs self' = probs self ++ [prob]) /\
  length (probs self') = S (length (probs self)) /\
  rewards self' = rewards self /\
  learning_rate self' = learning_rate self /\
  gamma self' = gamma self /\
  eps self' = eps self /\
  net self' = net self /\
  optimizer self' = optimizer self /\
  (forall rs,
      sample_action (with_buffers self (probs self) rs) state g
      = Ok (action, with_buffers self' (probs self') rs, g')).
Proof.
  intros E. split; [|split; [|split; [|split; [|split; [|split; [|split; [|split]]]]]]].
  9: { intros rs. revert E. unfold sample_action. cbn [eps net probs with_buffers].
       destruct (policy_distribution (eps self) (net self) [state]) as [d|e];
         [|discriminate].
       cbn [bind]. destruct (sample d g) as [a g1].
       destruct (log_prob d a) as [lp|]; [|discriminate].
       cbn [bind]. now intros [= <- <- <-]. }
  all: apply sample_action_inv in E as (d & prob & _ & _ & _ & _ & ->); cbn;
    try reflexivity.
  - now exists prob.
  - rewrite length_app. cbn. lia.
Qed.

(** C9, as the code has it.  On a network configured for [obs_space_dims],
    [forward] raises torch's [RuntimeError] for an observation of any other
    length, and returns for one of that length; [RuntimeError] is the only
    exception [forward] raises. *)
Theorem forward_shape_errors (obs_space_dims action_space_dims : nat)
        (self : Policy_Network F) (x : list F) :
  network_shape obs_space_dims action_space_dims self ->
  (length x <> obs_space_dims -> forward self [x] = Error RuntimeError) /\
  (length x = obs_space_dims ->
   exists means stddevs, forward self [x] = Ok ([means], [stddevs])) /\
  (forall batch e, forward self batch = Error e -> e = RuntimeError).
Proof.
  intros Hn. split; [|split].
  - intros Hx. now apply forward_mismatch with (1 := Hn).
  - intros Hx.
    destruct (@forward_ok _ _ _ _ _ self [x] Hn) as (m & s & E & Lm & Ls & _).
    { now constructor. }
    destruct m as [|m0 [|? ?]]; try discriminate.
    destruct s as [|s0 [|? ?]]; try discriminate.
    now exists m0, s0.
  - intros batch e. apply forward_error.
Qed.

End AgentProperties.

(** ** Single precision *)

Section SinglePrecision.
Open Scope R_scope.

Lemma round_half_even_bounds (x : R) :
  (Zfloor x <= round_half_even x <= Zfloor x + 1)%Z.
Proof.
  unfold round_half_even.
  destruct (Rlt_dec _ _); [lia|]. destruct (Rlt_dec _ _); [lia|].
  destruct (Z.even _); lia.
Qed.

Lemma round_half_even_lub (n : Z) (x : R) :
  IZR n <= x -> (n <= round_half_even x)%Z.
Proof.
  intros Hn. apply Zfloor_lub in Hn.
  pose proof (round_half_even_bounds x). lia.
Qed.

Lemma round_half_even_small (x : R) :
  0 <= x < 1 / 2 -> round_half_even x = 0%Z.
Proof.
  intros Hx. assert (E : Zfloor x = 0%Z) by (apply Zfloor_eq; simpl; lra).
  unfold round_half_even. rewrite E.
  destruct (Rlt_dec _ _) as [_|N]; [reflexivity|]. exfalso. apply N. simpl. lra.
Qed.

Lemma round_half_even_IZR (n : Z) : round_half_even (IZR n) = n.
Proof.
  unfold round_half_even. rewrite ZfloorZ.
  destruct (Rlt_dec _ _) as [_|N]; [reflexivity|]. exfalso. apply N. lra.
Qed.

Lemma pow2_pos (e : Z) : 0 < powerRZ 2 e.
Proof. apply powerRZ_lt. lra. Qed.

Lemma pow2_add (a b : Z) : powerRZ 2 (a + b) = powerRZ 2 a * powerRZ 2 b.
Proof. apply powerRZ_add. lra. Qed.

Lemma pow2_cancel (e : Z) : powerRZ 2 (- e) * powerRZ 2 e = 1.
Proof. rewrite <- pow2_add. replace (- e + e)%Z with 0%Z by lia. reflexivity. Qed.

Lemma pow2_exp (e : Z) : powerRZ 2 e = exp (IZR e * ln 2).
Proof. rewrite powerRZ_Rpower by lra. reflexivity. Qed.

Lemma pow2_le (a b : Z) : (a <= b)%Z -> powerRZ 2 a <= powerRZ 2 b.
Proof.
  intros Hab. rewrite !powerRZ_Rpower by lra.
  apply Rle_Rpower; [lra | now apply IZR_le].
Qed.

Lemma ln2_bounds : 0 < ln 2 < 1.
Proof.
  split.
  - rewrite <- ln_1. apply ln_increasing; lra.
  - apply Rlt_le_trans with (ln (exp 1)); [|rewrite ln_exp; lra].
    apply ln_increasing; [lra|]. pose proof (exp_ineq1 1). lra.
Qed.

Lemma f32_exponent_min (x : R) : (-149 <= f32_exponent x)%Z.
Proof. unfold f32_exponent. lia. Qed.

(** Below half of the least positive binary32 number everything rounds to
    zero. *)
Lemma round32_underflow (x : R) :
  0 <= x < powerRZ 2 (-150) -> round32 x = F32_fin 0.
Proof.
  intros [H0 Hx]. unfold round32.
  set (e := f32_exponent x). pose proof (f32_exponent_min x) as He. fold e in He.
  assert (Hs : 0 <= x * powerRZ 2 (- e) < 1 / 2).
  { pose proof (pow2_pos (- e)) as Hp. split; [nra|].
    assert (Hle : powerRZ 2 (- e) <= powerRZ 2 149) by (apply pow2_le; lia).
    assert (Hm : powerRZ 2 (-150) * powerRZ 2 149 = 1 / 2).
    { rewrite <- pow2_add. simpl. lra. }
    pose proof (pow2_pos (-150)). nra. }
  rewrite (round_half_even_small Hs). rewrite Rmult_0_l, Rabs_R0.
  destruct (Rlt_dec f32_max 0) as [N|_]; [|reflexivity].
  exfalso. unfold f32_max in N. pose proof (pow2_pos 104).
  assert (0 < IZR (2 ^ 24 - 1)) by (apply IZR_lt; reflexivity). nra.
Qed.

(** In the range of the normal numbers the last place sits 23 binary
    digits below the leading one. *)
Lemma f32_exponent_normal (j : Z) (x : R) :
  (-126 <= j)%Z -> powerRZ 2 j <= x ->
  exists k, (j <= k)%Z /\ f32_exponent x = (k - 23)%Z /\ powerRZ 2 k <= x.
Proof.
  intros Hj Hx. destruct ln2_bounds as [L0 L1].
  assert (Hpos : 0 < x) by (pose proof (pow2_pos j); lra).
  exists (Zfloor (ln (Rabs x) / ln 2)).
  rewrite Rabs_pos_eq by lra.
  assert (Hk : (j <= Zfloor (ln x / ln 2))%Z).
  { apply Zfloor_lub.
    rewrite pow2_exp in Hx. rewrite <- (exp_ln x) in Hx at 1 by lra.
    assert (IZR j * ln 2 <= ln x).
    { destruct (Rle_lt_dec (IZR j * ln 2) (ln x)) as [|Hc]; [assumption|].
      apply exp_increasing in Hc. lra. }
    apply (Rmult_le_reg_r (ln 2)); [lra|].
    unfold Rdiv. rewrite Rmult_assoc, Rinv_l, Rmult_1_r; lra. }
  split; [exact Hk|].
  split; [unfold f32_exponent; rewrite Rabs_pos_eq by lra; lia|].
  rewrite pow2_exp. rewrite <- (exp_ln x) at 2 by lra.
  destruct (Zfloor_bound (ln x / ln 2)) as [Hb _].
  assert (H : IZR (Zfloor (ln x / ln 2)) * ln 2 <= ln x).
  { apply (Rmult_le_compat_r (ln 2)) in Hb; [|lra].
    unfold Rdiv in Hb. rewrite Rmult_assoc, Rinv_l, Rmult_1_r in Hb; lra. }
  destruct (Rle_lt_or_eq_dec _ _ H) as [Hlt| ->]; [|lra].
  left. now apply exp_increasing.
Qed.

(** Rounding is monotone at the powers of two. *)
Lemma round32_ge_pow2 (j : Z) (x : R) :
  (-126 <= j)%Z -> powerRZ 2 j <= x ->
  exists y, powerRZ 2 j <= y /\
            round32 x = if Rlt_dec f32_max (Rabs y) then F32_inf false
                        else F32_fin y.
Proof.
  intros Hj Hx.
  destruct (f32_exponent_normal Hj Hx) as (k & Hk & He & Hkx).
  unfold round32. rewrite He.
  set (m := round_half_even (x * powerRZ 2 (- (k - 23)))).
  assert (Hm : (2 ^ 23 <= m)%Z).
  { apply round_half_even_lub.
    apply Rle_trans with (powerRZ 2 k * powerRZ 2 (- (k - 23))).
    - rewrite <- pow2_add. replace (k + - (k - 23))%Z with 23%Z by lia.
      simpl. lra.
    - apply Rmult_le_compat_r; [left; apply pow2_pos | exact Hkx]. }
  assert (Hy : powerRZ 2 j <= IZR m * powerRZ 2 (k - 23)).
  { apply Rle_trans with (powerRZ 2 k); [now apply pow2_le|].
    replace (powerRZ 2 k) with (IZR (2 ^ 23) * powerRZ 2 (k - 23)).
    - apply Rmult_le_compat_r; [left; apply pow2_pos | now apply IZR_le].
    - replace k with (23 + (k - 23))%Z at 2 by lia. rewrite pow2_add.
      simpl. lra. }
  exists (IZR m * powerRZ 2 (k - 23)). split; [exact Hy|].
  destruct (Rlt_dec _ _); [|reflexivity].
  unfold is_negative. destruct (Rlt_dec _ _) as [N|_]; [|reflexivity].
  exfalso. pose proof (pow2_pos j). lra.
Qed.

Lemma round32_nonneg (x : R) : 0 <= x -> f32_nonnegative (round32 x).
Proof.
  intros Hx. unfold round32. set (e := f32_exponent x).
  set (m := round_half_even (x * powerRZ 2 (- e))).
  assert (Hm : (0 <= m)%Z).
  { apply round_half_even_lub. pose proof (pow2_pos (- e)). simpl. nra. }
  assert (Hy : 0 <= IZR m * powerRZ 2 e).
  { apply IZR_le in Hm. pose proof (pow2_pos e). simpl in Hm. nra. }
  destruct (Rlt_dec _ _); cbn.
  - unfold is_negative. destruct (Rlt_dec _ _); [lra | reflexivity].
  - exact Hy.
Qed.

Lemma f32_max_lt : f32_max < powerRZ 2 128.
Proof.
  unfold f32_max. replace 128%Z with (24 + 104)%Z by reflexivity.
  rewrite pow2_add. pose proof (pow2_pos 104).
  apply Rmult_lt_compat_r; [assumption|]. simpl. lra.
Qed.

Lemma round32_1 : round32 1 = F32_fin 1.
Proof.
  unfold round32.
  assert (He : f32_exponent 1 = (-23)%Z).
  { unfold f32_exponent. rewrite Rabs_R1, ln_1.
    unfold Rdiv. rewrite Rmult_0_l. change 0 with (IZR 0). now rewrite ZfloorZ. }
  rewrite He. rewrite Rmult_1_l.
  replace (powerRZ 2 (- -23)) with (IZR (2 ^ 23)) by (simpl; lra).
  rewrite round_half_even_IZR.
  replace (IZR (2 ^ 23) * powerRZ 2 (-23)) with 1.
  - rewrite Rabs_R1. destruct (Rlt_dec f32_max 1) as [N|_]; [|reflexivity].
    exfalso. unfold f32_max in N.
    assert (1 <= powerRZ 2 104) by (change 1 with (powerRZ 2 0); apply pow2_le; lia).
    assert (1 <= IZR (2 ^ 24 - 1)) by (apply IZR_le; lia). nra.
  - rewrite <- (pow2_cancel (-23)). simpl. lra.
Qed.

Lemma exp_underflows : 0 <= exp (-1000) < powerRZ 2 (-150).
Proof.
  split; [left; apply exp_pos|]. rewrite pow2_exp. apply exp_increasing.
  destruct ln2_bounds. nra.
Qed.

Lemma exp_overflows : powerRZ 2 128 <= exp 1000.
Proof.
  rewrite pow2_exp. left. apply exp_increasing. destruct ln2_bounds. nra.
Qed.

Lemma f32_one : of_Q (F := f32) 1 = F32_fin 1.
Proof. cbn [of_Q f32_Scalar]. rewrite RMicromega.Q2R_1. apply round32_1. Qed.

Lemma f32_log_1 : f32_log (F32_fin 1) = F32_fin 0.
Proof.
  unfold f32_log, is_negative, is_zero.
  destruct (Rlt_dec 1 0); [lra|]. destruct (Req_dec_T 1 0); [lra|].
  rewrite ln_1. apply round32_underflow. pose proof (pow2_pos (-150)). lra.
Qed.

Lemma f32_add_1_0 : f32_add (F32_fin 1) (F32_fin 0) = F32_fin 1.
Proof. cbn [f32_add]. rewrite Rplus_0_r. apply round32_1. Qed.

Lemma f32_log_ge1 (z : R) : 1 <= z -> f32_nonnegative (f32_log (F32_fin z)).
Proof.
  intros Hz. unfold f32_log, is_negative, is_zero.
  destruct (Rlt_dec z 0); [lra|]. destruct (Req_dec_T z 0); [lra|].
  apply round32_nonneg. rewrite <- ln_1.
  destruct (Req_dec z 1) as [->|]; [lra|]. left. apply ln_increasing; lra.
Qed.

Lemma softplus_f32_underflow : softplus (F32_fin (-1000)) = F32_fin 0.
Proof.
  unfold softplus. cbn [t_exp t_log s_add f32_Elementary f32_Scalar f32_exp].
  rewrite (round32_underflow exp_underflows).
  change (round32 (Q2R 1)) with (of_Q (F := f32) 1).
  rewrite f32_one, f32_add_1_0. apply f32_log_1.
Qed.

Lemma softplus_f32_overflow : softplus (F32_fin 1000) = F32_inf false.
Proof.
  unfold softplus. cbn [t_exp t_log s_add f32_Elementary f32_Scalar f32_exp].
  change (round32 (Q2R 1)) with (of_Q (F := f32) 1). rewrite f32_one.
  destruct (@round32_ge_pow2 128 (exp 1000)) as (y & Hy & ->);
    [lia | apply exp_overflows |].
  destruct (Rlt_dec _ _) as [_|N]; [reflexivity|].
  exfalso. apply N. pose proof f32_max_lt. pose proof (pow2_pos 128).
  rewrite Rabs_pos_eq; lra.
Qed.

Lemma softplus_f32_nonnegative (x : f32) :
  x <> F32_nan -> f32_nonnegative (softplus x).
Proof.
  intros Hx. unfold softplus.
  cbn [t_exp t_log s_add f32_Elementary f32_Scalar].
  change (round32 (Q2R 1)) with (of_Q (F := f32) 1). rewrite f32_one.
  destruct x as [|[|]|r]; [easy| | |]; cbn [f32_exp].
  - rewrite f32_add_1_0, f32_log_1. cbn. lra.
  - reflexivity.
  - pose proof (round32_nonneg (x := exp r)) as Hn.
    destruct (round32 (exp r)) as [|s|y]; cbn in Hn.
    + destruct Hn. left. apply exp_pos.
    + rewrite Hn; [reflexivity | left; apply exp_pos].
    + assert (Hy : 0 <= y) by (apply Hn; left; apply exp_pos).
      cbn [f32_add].
      destruct (@round32_ge_pow2 0 (1 + y)) as (z & Hz & ->); [lia | simpl; lra |].
      destruct (Rlt_dec _ _); [reflexivity|]. apply f32_log_ge1. exact Hz.
Qed.

Lemma eps_above : powerRZ 2 (-20) <= Q2R 1e-6.
Proof. unfold Q2R. cbn [Qnum Qden]. simpl. lra. Qed.

Lemma round32_positive (x : R) :
  powerRZ 2 (-20) <= x -> f32_positive (round32 x).
Proof.
  intros Hx.
  destruct (@round32_ge_pow2 (-20) x) as (y & Hy & ->); [lia | exact Hx |].
  pose proof (pow2_pos (-20)).
  destruct (Rlt_dec _ _); cbn; [reflexivity | lra].
Qed.

(** The guard of [sample_action]: a scale that is not negative is strictly
    positive once [eps] is added. *)
Lemma scale_plus_eps_positive (s : f32) :
  f32_nonnegative s -> f32_positive (s_add s (of_Q 1e-6)).
Proof.
  intros Hs. cbn [s_add of_Q f32_Scalar].
  destruct (@round32_ge_pow2 (-20) (Q2R 1e-6)) as (q & Hq & ->);
    [lia | exact eps_above |].
  destruct (Rlt_dec f32_max (Rabs q)).
  - destruct s as [|ns|x]; cbn in Hs; [easy| |]; [subst ns|]; reflexivity.
  - destruct s as [|ns|x]; cbn in Hs; [easy| |]; [subst ns; reflexivity|].
    cbn [f32_add]. apply round32_positive. lra.
Qed.

Lemma softplus_real_positive (x : R) : 0 < softplus x.
Proof.
  unfold softplus. cbn [t_exp t_log s_add of_Q R_Elementary R_Scalar].
  rewrite RMicromega.Q2R_1, <- ln_1. pose proof (exp_pos x).
  apply ln_increasing; lra.
Qed.

(** C5, as the code has it.  Read over the reals, [log(1 + exp(x))] is
    strictly positive for every [x].  Computed in single precision, as
    [forward] does, the scale is never negative and never not-a-number for
    an input that is a number; it is exactly 0 at x = -1000, where [exp]
    underflows, and infinite at x = 1000, where [exp] overflows.  What
    [sample_action] builds the distribution with, the scale plus [eps], is
    strictly positive. *)
Theorem softplus_scale :
  (forall x : R, 0 < softplus x)
  /\ (forall x : f32, x <> F32_nan -> f32_nonnegative (softplus x))
  /\ softplus (F32_fin (-1000)) = F32_fin 0
  /\ softplus (F32_fin 1000) = F32_inf false
  /\ (forall x : f32, x <> F32_nan ->
                      f32_positive (s_add (softplus x) (of_Q 1e-6))).
Proof.
  split; [exact softplus_real_positive|].
  split; [exact softplus_f32_nonnegative|].
  split; [exact softplus_f32_underflow|].
  split; [exact softplus_f32_overflow|].
  intros x Hx. apply scale_plus_eps_positive. now apply softplus_f32_nonnegative.
Qed.

(** C5 fails as stated: at x = -1000 the computed scale is not strictly
    positive. *)
Lemma softplus_scale_counterexample :
  ~ f32_positive_finite (softplus (F32_fin (-1000))).
Proof. rewrite softplus_f32_underflow. cbn. lra. Qed.
End SinglePrecision.

(** ** [Normal] over the reals

    Read over the reals, every entry is a number and a standard deviation
    plus a non-negative [eps] is positive: [Normal] rejects nothing. *)

Section RealNormal.
Context {TF : Torch R}.
Open Scope R_scope.

Lemma real_constraints_real (l : list R) : forallb constraints_real l = true.
Proof.
  apply forallb_forall. intros x _. unfold constraints_real.
  cbn [s_eqb R_Comparison]. destruct (Req_dec_T x x); [reflexivity | contradiction].
Qed.

Lemma real_constraints_positive (e : R) (raw : list R) :
  0 <= e ->
  forallb constraints_positive (map (fun s => s_add s e) (map softplus raw)) = true.
Proof.
  intros He. apply forallb_forall. intros x Hx.
  apply in_map_iff in Hx as (y & <- & Hy). apply in_map_iff in Hy as (z & <- & _).
  unfold constraints_positive. cbn [s_ltb R_Comparison s_add of_Q R_Scalar].
  pose proof (softplus_real_positive z).
  destruct (Rlt_dec (Q2R 0) (softplus z + e)) as [|N]; [reflexivity|].
  exfalso. apply N. rewrite RMicromega.Q2R_0. lra.
Qed.

Lemma Normal_accepts_real (obs_space_dims : nat) (e : R) (n : Policy_Network R) :
  0 <= e -> Normal_accepts obs_space_dims e n.
Proof.
  intros He state g args _ Ea.
  apply Normal_arguments_inv in Ea as (means & raw & _ & ->). cbn [fst snd].
  split; [apply real_constraints_real|].
  split; [now apply real_constraints_positive | apply real_constraints_real].
Qed.

Lemma sample_action_real (obs_space_dims action_space_dims : nat)
      (self : REINFORCE) (state : list R) (g : Generator) :
  network_shape obs_space_dims action_space_dims (net self) ->
  length state = obs_space_dims -> 0 <= eps self ->
  exists action self' g',
    sample_action self state g = Ok (action, self', g') /\
    length action = action_space_dims.
Proof.
  intros Hn Hs He.
  destruct (sample_action_cases self state g Hn Hs)
    as (means & stddevs & Ef & _ & _ & H). cbv zeta in H.
  destruct H as (_ & Hl & H).
  destruct (forward_one_row _ _ Ef) as (m & raw & _ & [= ->]).
  cbn [loc scale] in H.
  rewrite !real_constraints_real, real_constraints_positive in H by exact He.
  cbn [andb] in H. eexists _, _, _. split; [exact H | exact Hl].
Qed.

Lemma eps_nonnegative : 0 <= Q2R 1e-6.
Proof. pose proof eps_above. pose proof (pow2_pos (-20)). lra. Qed.
End RealNormal.

(** ** Not-a-number in single precision

    A not-a-number in the observation reaches every output of the network,
    whatever the parameters, and [Normal] rejects it. *)

Section NotANumber.
Context {TF : Torch f32}.

Lemma f32_add_nan_r (a : f32) : f32_add a F32_nan = F32_nan.
Proof. destruct a as [|s|x]; reflexivity. Qed.

Lemma fold_add_nan (l : list f32) : fold_left f32_add l F32_nan = F32_nan.
Proof. induction l as [|y l IH]; [reflexivity | exact IH]. Qed.

Lemma fold_add_contains_nan (l : list f32) (acc : f32) :
  In F32_nan l -> fold_left f32_add l acc = F32_nan.
Proof.
  revert acc. induction l as [|y l IH]; intros acc; [intros []|].
  intros [->|H]; cbn [fold_left].
  - rewrite f32_add_nan_r. apply fold_add_nan.
  - now apply IH.
Qed.

Lemma dot_nan (x row : list f32) :
  length x = length row -> In F32_nan x -> dot x row = F32_nan.
Proof.
  intros L H. unfold dot, t_sum. cbn [s_add f32_Scalar].
  apply fold_add_contains_nan. revert row L.
  induction x as [|a x IH]; intros [|w row] L; try easy.
  cbn [combine map In fst snd]. destruct H as [->|H].
  - left. reflexivity.
  - right. apply IH; [exact H | now injection L].
Qed.

Lemma linear_nan (i o : nat) (l : Linear f32) (x : list f32) :
  linear_shape i o l -> length x = i -> In F32_nan x ->
  linear l x = Ok (repeat F32_nan o).
Proof.
  intros (Hi & _ & Hw & Hb & Hrows) Hx Hin. unfold linear.
  rewrite Hi, Hx, Nat.eqb_refl. f_equal. subst o. rewrite <- Hx in Hrows.
  revert Hb Hrows. generalize (bias l). generalize (weight l).
  intros W. induction W as [|row W IH]; intros [|b bs] Hb Hrows; try easy.
  inversion Hrows; subst. cbn [combine map fst snd length repeat].
  rewrite dot_nan by (auto; congruence). cbn [s_add f32_Scalar f32_add].
  f_equal. apply IH; [now injection Hb | assumption].
Qed.

Lemma softplus_nan : softplus F32_nan = F32_nan.
Proof.
  unfold softplus. cbn [t_exp t_log s_add f32_Elementary f32_Scalar f32_exp].
  now rewrite f32_add_nan_r.
Qed.

Lemma forward_nan (obs_space_dims action_space_dims : nat)
      (self : Policy_Network f32) (x : list f32) :
  network_shape obs_space_dims action_space_dims self ->
  length x = obs_space_dims -> In F32_nan x ->
  forward self [x]
  = Ok ([repeat F32_nan action_space_dims], [repeat F32_nan action_space_dims]).
Proof.
  intros (S0 & S2 & Sm & Ss) Hx Hin. unfold forward, shared_net. cbn [on_rows].
  rewrite (@linear_nan _ _ _ _ S0 Hx Hin). cbn [bind Tanh map on_rows].
  rewrite map_repeat. cbn [t_tanh f32_Elementary f32_tanh].
  rewrite (@linear_nan _ _ _ _ S2 (repeat_length _ _)) by (now left).
  cbn [bind Tanh map on_rows]. rewrite map_repeat. cbn [t_tanh f32_Elementary f32_tanh].
  rewrite (@linear_nan _ _ _ _ Sm (repeat_length _ _)) by (now left).
  rewrite (@linear_nan _ _ _ _ Ss (repeat_length _ _)) by (now left).
  cbn [bind map]. now rewrite map_repeat, softplus_nan.
Qed.

(** A not-a-number among the entries of a state of the right length makes
    [sample_action] raise [ValueError], when there is at least one action
    dimension. *)
Lemma sample_action_nan (obs_space_dims action_space_dims : nat)
      (self : REINFORCE) (state : list f32) (g : Generator) :
  network_shape obs_space_dims (S action_space_dims) (net self) ->
  length state = obs_space_dims -> In F32_nan state ->
  sample_action self state g = Error ValueError.
Proof.
  intros Hn Hs Hin.
  destruct (sample_action_cases self state g Hn Hs)
    as (means & stddevs & Ef & _ & _ & H). cbv zeta in H.
  destruct H as (_ & _ & H).
  rewrite (@forward_nan _ _ _ _ Hn Hs Hin) in Ef. injection Ef as <- <-.
  cbn [loc scale repeat map forallb] in H.
  cbn [constraints_real s_eqb f32_Comparison s_add f32_Scalar f32_add f32_eqb andb]
    in H.
  exact H.
Qed.
End NotANumber.

(** ** Runs on concrete agents *)

(** A freshly constructed agent over the reals returns an action for every
    state of the right length. *)
Lemma fixture_sample_action (obs_space_dims action_space_dims : nat)
      (state : list R) :
  length state = obs_space_dims ->
  exists action self' g',
    sample_action (fixture_agent obs_space_dims action_space_dims) state 0%Z
    = Ok (action, self', g').
Proof.
  intros Hs.
  pose proof (configured_new (TF := fixture_torch R)
                obs_space_dims action_space_dims 0%Z) as Hc.
  fold (fixture_agent obs_space_dims action_space_dims) in Hc.
  destruct (@sample_action_real (fixture_torch R) obs_space_dims action_space_dims
              (fixture_agent obs_space_dims action_space_dims) state 0%Z)
    as (action & self' & g' & E & _).
  - now apply configured_shape.
  - exact Hs.
  - rewrite (configured_eps Hc). apply eps_nonnegative.
  - now exists action, self', g'.
Qed.

(** C3 at a freshly constructed agent: [update] raises [AttributeError]. *)
Lemma update_on_empty_buffers_witness :
  update (fixture_agent 4 1) = Error AttributeError.
Proof.
  apply (update_on_empty_buffers (fixture_agent 4 1)); reflexivity.
Defined.

(** C3 fails as stated: on a freshly constructed agent, whose buffers are
    empty, [update] neither leaves the agent as it is nor signals
    [EmptyTrajectoryError]. *)
Lemma update_on_empty_buffers_counterexample :
  probs (fixture_agent 4 1) = [] /\ rewards (fixture_agent 4 1) = [] /\
  ~ (update (fixture_agent 4 1) = Ok (fixture_agent 4 1) \/
     update (fixture_agent 4 1) = Error EmptyTrajectoryError).
Proof.
  split; [reflexivity|]. split; [reflexivity|].
  assert (E : update (fixture_agent 4 1) = Error AttributeError) by reflexivity.
  rewrite E. intros [D|D]; discriminate D.
Qed.

(** C7 at the dimensions (4, 1), (8, 3) and (2, 2), over the reals: an
    action is returned, of 1, 3 and 2 entries. *)
Lemma sample_action_shape_witness :
  (exists action self' g',
      sample_action (fixture_agent 4 1) [0; 0; 0; 0]%R 0%Z
      = Ok (action, self', g')
      /\ length action = 1%nat) /\
  (exists action self' g',
      sample_action (fixture_agent 8 3) [0; 0; 0; 0; 0; 0; 0; 0]%R 0%Z
      = Ok (action, self', g')
      /\ length action = 3%nat) /\
  (exists action self' g',
      sample_action (fixture_agent 2 2) [0; 0]%R 0%Z = Ok (action, self', g')
      /\ length action = 2%nat).
Proof.
  split; [|split].
  - destruct (@fixture_sample_action 4 1 [0; 0; 0; 0]%R eq_refl)
      as (action & self' & g' & E).
    exists action, self', g'. split; [exact E|].
    exact (proj1 (proj2 (@sample_action_shape R _ _ _ (fixture_torch R) 4 1
                           (fixture_agent 4 1) [0; 0; 0; 0]%R 0%Z
                           (configured_new (TF := fixture_torch R) 4 1 0%Z)
                           eq_refl)) _ _ _ E).
  - destruct (@fixture_sample_action 8 3 [0; 0; 0; 0; 0; 0; 0; 0]%R eq_refl)
      as (action & self' & g' & E).
    exists action, self', g'. split; [exact E|].
    exact (proj1 (proj2 (@sample_action_shape R _ _ _ (fixture_torch R) 8 3
                           (fixture_agent 8 3) [0; 0; 0; 0; 0; 0; 0; 0]%R 0%Z
                           (configured_new (TF := fixture_torch R) 8 3 0%Z)
                           eq_refl)) _ _ _ E).
  - destruct (@fixture_sample_action 2 2 [0; 0]%R eq_refl)
      as (action & self' & g' & E).
    exists action, self', g'. split; [exact E|].
    exact (proj1 (proj2 (@sample_action_shape R _ _ _ (fixture_torch R) 2 2
                           (fixture_agent 2 2) [0; 0]%R 0%Z
                           (configured_new (TF := fixture_torch R) 2 2 0%Z)
                           eq_refl)) _ _ _ E).
Defined.

(** C7 fails as stated: in single precision, on a freshly constructed agent
    for (4, 1), an observation of four entries of which the first is
    not-a-number gets no action back. *)
Lemma sample_action_shape_counterexample :
  configured 4 1 (fixture_agent32 4 1) /\
  length [F32_nan; F32_fin 0; F32_fin 0; F32_fin 0] = 4%nat /\
  ~ (exists action self' g',
        sample_action (fixture_agent32 4 1)
                      [F32_nan; F32_fin 0; F32_fin 0; F32_fin 0] 0%Z
        = Ok (action, self', g')
        /\ length action = 1%nat).
Proof.
  assert (Hc : configured 4 1 (fixture_agent32 4 1))
    by exact (configured_new (TF := fixture_torch f32) 4 1 0%Z).
  split; [exact Hc|]. split; [reflexivity|].
  intros (action & self' & g' & E & _).
  rewrite (@sample_action_nan (fixture_torch f32) 4 0) in E.
  - discriminate E.
  - now apply configured_shape.
  - reflexivity.
  - now left.
Qed.

(** C8 at a freshly constructed agent and the observation [0, 0, 0, 0]. *)
Lemma sample_action_frame_witness :
  exists action self' g',
    sample_action (fixture_agent 4 1) [0; 0; 0; 0]%R 0%Z
    = Ok (action, self', g') /\
    length (probs self') = 1%nat /\ rewards self' = [] /\
    net self' = net (fixture_agent 4 1).
Proof.
  destruct (@fixture_sample_action 4 1 [0; 0; 0; 0]%R eq_refl)
    as (action & self' & g' & E).
  exists action, self', g'. split; [exact E|].
  destruct (@sample_action_frame R _ _ _ (fixture_torch R) (fixture_agent 4 1)
              [0; 0; 0; 0]%R 0%Z _ _ _ E)
    as (_ & Hl & Hr & _ & _ & _ & Hn & _ & _).
  split; [exact Hl|]. split; [exact Hr | exact Hn].
Defined.

(** C9 at a network configured for four observations: three entries raise
    [RuntimeError], four pass. *)
Lemma forward_shape_errors_witness :
  network_shape 4 1 (net (fixture_agent 4 1)) /\
  forward (net (fixture_agent 4 1)) [[0; 0; 0]%R] = Error RuntimeError /\
  exists means stddevs,
    forward (net (fixture_agent 4 1)) [[0; 0; 0; 0]%R] = Ok ([means], [stddevs]).
Proof.
  assert (Hn : network_shape 4 1 (net (fixture_agent 4 1))).
  { unfold network_shape, linear_shape. cbn. repeat split; repeat constructor. }
  split; [exact Hn|].
  destruct (@forward_shape_errors R _ _ 4 1 (net (fixture_agent 4 1))
              [0; 0; 0]%R Hn) as (Hbad & _ & _).
  destruct (@forward_shape_errors R _ _ 4 1 (net (fixture_agent 4 1))
              [0; 0; 0; 0]%R Hn) as (_ & Hgood & _).
  split; [apply Hbad; cbn; lia | apply Hgood; reflexivity].
Defined.

(** C9 fails as stated: an observation of three entries on a network
    configured for four does not raise [InvalidObservationShape]. *)
Lemma forward_shape_errors_counterexample :
  network_shape 4 1 (net (fixture_agent 4 1)) /\
  length [0; 0; 0]%R <> 4%nat /\
  forward (net (fixture_agent 4 1)) [[0; 0; 0]%R]
  <> Error InvalidObservationShape.
Proof.
  split;
    [apply (configured_shape (configured_new (TF := fixture_torch R) 4 1 0%Z))|].
  split; [cbn; lia|].
  assert (E : forward (net (fixture_agent 4 1)) [[0; 0; 0]%R]
              = Error RuntimeError) by reflexivity.
  rewrite E. discriminate.
Qed.


(** * Further properties of the code *)

(** ** [update] and the constructors *)

Section UpdateFacts.
Context {F : Type} {SF : Scalar F} {EF : Elementary F} {TF : Torch F}.

(** X1.  [update] returns exactly when both buffers hold at least one entry;
    otherwise it raises, and [AttributeError] is the only exception it
    raises (one empty buffer is enough: the pairing loop then runs zero
    times). *)
Theorem update_returns_iff (self : REINFORCE) :
  ((exists self', update self = Ok self') <->
   (probs self <> [] /\ rewards self <> []))
  /\ (forall e, update self = Error e ->
                e = AttributeError /\ (probs self = [] \/ rewards self = [])).
Proof.
  destruct (probs self) as [|p ps] eqn:Ep.
  - assert (U : update self = Error AttributeError)
      by (apply update_empty; now left).
    rewrite U. split; [split|].
    + intros [s' D]. discriminate D.
    + now intros [N _].
    + intros e [= <-]. split; [reflexivity | now left].
  - destruct (rewards self) as [|r rs] eqn:Er.
    + assert (U : update self = Error AttributeError)
        by (apply update_empty; now right).
      rewrite U. split; [split|].
      * intros [s' D]. discriminate D.
      * now intros [_ N].
      * intros e [= <-]. split; [reflexivity | now right].
    + assert (Hp : probs self <> []) by (rewrite Ep; discriminate).
      assert (Hr : rewards self <> []) by (rewrite Er; discriminate).
      destruct (update_ok self Hp Hr) as (l & _ & U). cbv zeta in U. rewrite U.
      split; [split|].
      * intros _. split; discriminate.
      * intros _. eexists. reflexivity.
      * discriminate.
Qed.

Lemma load_matrix_concat_length (old : list (list F)) (vals : list F) :
  length (concat (fst (load_matrix old vals))) = length (concat old).
Proof.
  revert vals. induction old as [|row rows IH]; intros vals; cbn [load_matrix];
    [reflexivity|].
  pose proof (load_vector_length row vals) as Hr.
  destruct (load_vector row vals) as [r vals1]. specialize (IH vals1).
  destruct (load_matrix rows vals1) as [m vals2]. cbn [fst concat] in *.
  now rewrite !length_app, Hr, IH.
Qed.

Lemma load_linear_parameters_length (l : Linear F) (vals : list F) :
  length (linear_parameters (fst (load_linear l vals)))
  = length (linear_parameters l).
Proof.
  unfold load_linear, linear_parameters.
  pose proof (load_matrix_concat_length (weight l) vals) as Hw.
  destruct (load_matrix (weight l) vals) as [w vals1].
  pose proof (load_vector_length (bias l) vals1) as Hb.
  destruct (load_vector (bias l) vals1) as [b vals2]. cbn [fst weight bias] in *.
  now rewrite !length_app, Hw, Hb.
Qed.

Lemma load_parameters_length (self : Policy_Network F) (vals : list F) :
  length (parameters (load_parameters self vals)) = length (parameters self).
Proof.
  unfold load_parameters, parameters.
  pose proof (load_linear_parameters_length (shared_net_0 self) vals) as H0.
  destruct (load_linear (shared_net_0 self) vals) as [l0 v0].
  pose proof (load_linear_parameters_length (shared_net_2 self) v0) as H2.
  destruct (load_linear (shared_net_2 self) v0) as [l2 v2].
  pose proof (load_linear_parameters_length (policy_mean_net self) v2) as Hm.
  destruct (load_linear (policy_mean_net self) v2) as [lm vm].
  pose proof (load_linear_parameters_length (policy_stddev_net self) vm) as Hs.
  destruct (load_linear (policy_stddev_net self) vm) as [ls vs].
  cbn [fst shared_net_0 shared_net_2 policy_mean_net policy_stddev_net] in *.
  rewrite !length_app. congruence.
Qed.

(** X2.  A returning [update] leaves the three hyperparameters as they
    were and changes the parameters by value only: their number and the
    sizes of the four layers stay. *)
Theorem update_keeps_configuration (self self' : REINFORCE) :
  update self = Ok self' ->
  learning_rate self' = learning_rate self /\
  gamma self' = gamma self /\ eps self' = eps self /\
  length (parameters (net self')) = length (parameters (net self)) /\
  (forall o a, network_shape o a (net self) -> network_shape o a (net self')).
Proof.
  intros U. apply update_inv in U as (_ & _ & Hl & Hg & He & theta' & ->).
  do 3 (split; [assumption|]). split; [apply load_parameters_length|].
  intros o a Hs. now apply load_parameters_shape.
Qed.

Lemma concat_length_uniform (n : nat) (m : list (list F)) :
  Forall (fun row => length row = n) m -> length (concat m) = (length m * n)%nat.
Proof.
  induction 1 as [|row rows Hr _ IH]; [reflexivity|].
  cbn [concat length]. rewrite length_app, Hr, IH. lia.
Qed.

Lemma linear_shape_parameters (i o : nat) (l : Linear F) :
  linear_shape i o l -> length (linear_parameters l) = (o * i + o)%nat.
Proof.
  intros (_ & _ & Hw & Hb & Hrows). unfold linear_parameters.
  now rewrite length_app, (concat_length_uniform Hrows), Hw, Hb.
Qed.

Lemma network_shape_parameters (o a : nat) (self : Policy_Network F) :
  network_shape o a self ->
  length (parameters self) = (16 * o + 560 + 66 * a)%nat.
Proof.
  intros (S0 & S2 & Sm & Ss). unfold parameters. rewrite !length_app.
  rewrite (linear_shape_parameters S0), (linear_shape_parameters S2),
    (linear_shape_parameters Sm), (linear_shape_parameters Ss).
  unfold hidden_space1, hidden_space2. lia.
Qed.

(** X3.  Whatever the generator, the constructor returns an agent with
    empty buffers and a network of the sizes obs -> 16 -> 32 -> act (twice,
    for the two heads): 16, 32, act and act rows of weights, and
    16 * obs + 560 + 66 * act parameters in all. *)
Theorem REINFORCE_new_agent (obs_space_dims action_space_dims : nat)
        (g : Generator) :
  let self := fst (REINFORCE_new obs_space_dims action_space_dims g) in
  probs self = [] /\ rewards self = [] /\
  network_shape obs_space_dims action_space_dims (net self) /\
  length (parameters (net self))
  = (16 * obs_space_dims + 560 + 66 * action_space_dims)%nat /\
  length (weight (shared_net_0 (net self))) = 16%nat /\
  length (weight (shared_net_2 (net self))) = 32%nat /\
  length (weight (policy_mean_net (net self))) = action_space_dims /\
  length (weight (policy_stddev_net (net self))) = action_space_dims.
Proof.
  cbv zeta.
  destruct (REINFORCE_new_fields obs_space_dims action_space_dims g) as (Hp & Hr & Hn).
  pose proof (Policy_Network_new_shape obs_space_dims action_space_dims g) as Hs.
  rewrite <- Hn in Hs.
  split; [exact Hp|]. split; [exact Hr|]. split; [exact Hs|].
  split; [exact (network_shape_parameters Hs)|].
  destruct Hs as ((_ & _ & H0 & _) & (_ & _ & H2 & _) & (_ & _ & Hm & _) & (_ & _ & Hsd & _)).
  repeat split; assumption.
Qed.
End UpdateFacts.

Section ReturnsFacts.
Context {F : Type} {SF : Scalar F}.

(** X6.  The return of a step does not depend on the rewards before it:
    the returns of an episode, from step [length pre] on, are the returns of
    the rest of the episode on its own.  (Any arithmetic.) *)
Theorem discounted_returns_suffix (gamma : F) (pre post : list F) :
  skipn (length pre) (discounted_returns gamma (pre ++ post))
  = discounted_returns gamma post
  /\ length (firstn (length pre) (discounted_returns gamma (pre ++ post)))
     = length pre.
Proof.
  split.
  - induction pre as [|r pre IH]; [reflexivity|].
    cbn [app length]. rewrite discounted_returns_cons. cbn [skipn]. exact IH.
  - rewrite length_firstn, discounted_returns_length, length_app. lia.
Qed.
End ReturnsFacts.

(** ** Returns and loss under bounded and rescaled rewards *)

Section RationalBounds.
Open Scope Q_scope.

Lemma discounted_returns_bounded (gamma M : Q) (rs : list Q) :
  0 <= gamma -> gamma < 1 ->
  Forall (fun r => 0 <= r /\ r <= M) rs ->
  Forall2 (fun r G => 0 <= G /\ G * (1 - gamma) <= M /\ r <= G)
          rs (discounted_returns gamma rs).
Proof.
  intros H0 H1. induction 1 as [|r rs [Hr0 HrM] _ IH].
  - rewrite discounted_returns_nil. constructor.
  - rewrite discounted_returns_cons. constructor; [|exact IH].
    cbn [s_add s_mul of_Q Q_Scalar].
    destruct (discounted_returns gamma rs) as [|G Gs]; cbn [hd].
    + repeat split; Lqa.nra.
    + inversion IH as [|? ? ? ? (HG0 & HGM & _) _]; subst. repeat split; Lqa.nra.
Qed.

(** X7.  For rewards between 0 and [M] and a discount factor in [0, 1),
    every return lies between its own reward and M / (1 - gamma).  (Exact
    arithmetic.) *)
Theorem discounted_returns_within_bounds (gamma M : Q) (rewards : list Q) :
  0 <= gamma -> gamma < 1 ->
  Forall (fun r => 0 <= r /\ r <= M) rewards ->
  Forall2 (fun r G => r <= G /\ G <= M / (1 - gamma))
          rewards (discounted_returns gamma rewards).
Proof.
  intros H0 H1 Hr.
  pose proof (discounted_returns_bounded H0 H1 Hr) as HB.
  revert HB. apply Forall2_impl. intros r G (HG0 & HGM & HrG).
  split; [exact HrG|]. apply Qle_shift_div_l; [Lqa.lra | exact HGM].
Qed.

Lemma Forall2_hd_Qeq (l l' : list Q) :
  Forall2 Qeq l l' -> hd 0 l == hd 0 l'.
Proof. destruct 1; cbn [hd]; [reflexivity | assumption]. Qed.

(** Rewards scaled by [c] give returns scaled by [c]. *)
Lemma discounted_returns_scale (c gamma : Q) (rs : list Q) :
  Forall2 Qeq (discounted_returns gamma (map (Qmult c) rs))
              (map (Qmult c) (discounted_returns gamma rs)).
Proof.
  induction rs as [|r rs IH]; cbn [map].
  - rewrite discounted_returns_nil. constructor.
  - rewrite !discounted_returns_cons. cbn [map]. constructor; [|exact IH].
    cbn [s_add s_mul of_Q Q_Scalar].
    assert (E : hd 0 (discounted_returns gamma (map (Qmult c) rs))
                == c * hd 0 (discounted_returns gamma rs)).
    { rewrite (Forall2_hd_Qeq IH).
      destruct (discounted_returns gamma rs); cbn [map hd]; [ring | reflexivity]. }
    rewrite E. ring.
Qed.

Lemma negative_weighted_sum_ext (ps Gs Gs' : list Q) :
  Forall2 Qeq Gs Gs' ->
  negative_weighted_sum ps Gs == negative_weighted_sum ps Gs'.
Proof.
  intros E. unfold negative_weighted_sum. apply Qopp_comp.
  revert ps. induction E as [|G G' Gs Gs' EG _ IH]; intros ps.
  - now destruct ps.
  - destruct ps as [|p ps]; [reflexivity|].
    cbn [combine map Qsum fold_right fst snd].
    fold (Qsum (map (fun pg => fst pg * snd pg) (combine ps Gs))).
    fold (Qsum (map (fun pg => fst pg * snd pg) (combine ps Gs'))).
    now rewrite IH, EG.
Qed.

Lemma negative_weighted_sum_scale (c : Q) (ps Gs : list Q) :
  negative_weighted_sum ps (map (Qmult c) Gs) == c * negative_weighted_sum ps Gs.
Proof.
  unfold negative_weighted_sum.
  assert (E : Qsum (map (fun pg => fst pg * snd pg) (combine ps (map (Qmult c) Gs)))
              == c * Qsum (map (fun pg => fst pg * snd pg) (combine ps Gs))).
  { revert Gs. induction ps as [|p ps IH]; intros [|G Gs];
      cbn [combine map Qsum fold_right fst snd]; try ring.
    fold (Qsum (map (fun pg => fst pg * snd pg) (combine ps (map (Qmult c) Gs)))).
    fold (Qsum (map (fun pg => fst pg * snd pg) (combine ps Gs))).
    rewrite IH. ring. }
  rewrite E. ring.
Qed.

(** X8.  The loss is linear in the rewards: with every reward multiplied
    by [c] the loss [update] forms is [c] times what it was, for any logged
    log-probabilities and buffers of any lengths.  (Exact arithmetic.) *)
Theorem update_loss_scales_with_rewards (c gamma : Q) (probs : list tensor)
        (rewards : list Q) :
  py_item (update_loss probs (discounted_returns gamma (map (Qmult c) rewards)))
  == c * py_item (update_loss probs (discounted_returns gamma rewards)).
Proof.
  rewrite !update_loss_item.
  rewrite (negative_weighted_sum_ext _ (discounted_returns_scale c gamma rewards)).
  apply negative_weighted_sum_scale.
Qed.
End RationalBounds.

(** ** [forward] over the reals *)

Section RealForward.
Open Scope R_scope.

Lemma tanh_bounded (x : R) : Rabs (tanh x) <= 1.
Proof.
  unfold tanh, sinh, cosh.
  pose proof (exp_pos x) as Ha. pose proof (exp_pos (- x)) as Hb.
  set (a := exp x) in *. set (b := exp (- x)) in *.
  replace ((a - b) / 2 / ((a + b) / 2)) with ((a - b) / (a + b)) by (field; lra).
  assert (Hq : (a - b) / (a + b) * (a + b) = a - b) by (field; lra).
  set (t := (a - b) / (a + b)) in *.
  left. apply Rabs_def1; nra.
Qed.

Lemma fold_left_Rplus_bound (l : list R) (a : R) :
  Rabs (fold_left Rplus l a) <= Rabs a + fold_right (fun w acc => Rabs w + acc) 0 l.
Proof.
  revert a. induction l as [|w l IH]; intros a; cbn [fold_left fold_right]; [lra|].
  eapply Rle_trans; [apply IH|]. pose proof (Rabs_triang a w). lra.
Qed.

Lemma dot_bounded (x row : list R) :
  Forall (fun h => Rabs h <= 1) x -> Rabs (dot x row) <= l1_norm row.
Proof.
  intros Hx. unfold dot, t_sum. cbn [of_Q s_add s_mul R_Scalar].
  eapply Rle_trans; [apply fold_left_Rplus_bound|].
  rewrite RMicromega.Q2R_0, Rabs_R0, Rplus_0_l.
  revert row. induction Hx as [|h x Hh _ IH]; intros row.
  - cbn. unfold l1_norm. induction row as [|w row IHr]; cbn; [lra|].
    pose proof (Rabs_pos w). fold (l1_norm row) in *. unfold l1_norm in *. lra.
  - destruct row as [|w row]; [cbn; lra|].
    cbn [combine map fold_right fst snd l1_norm]. fold (l1_norm row).
    specialize (IH row). rewrite Rabs_mult.
    pose proof (Rabs_pos w). pose proof (Rabs_pos h). nra.
Qed.

Lemma on_rows_inv (A B : Type) (f : A -> result B) (rows : list A) (ys : list B) :
  on_rows f rows = Ok ys -> Forall2 (fun r y => f r = Ok y) rows ys.
Proof.
  revert ys. induction rows as [|r rows IH]; intros ys; cbn [on_rows].
  - intros [= <-]. constructor.
  - destruct (f r) as [y|] eqn:E; [|discriminate]. cbn [bind].
    destruct (on_rows f rows) as [ys'|]; [|discriminate]. cbn [bind].
    intros [= <-]. constructor; [exact E | now apply IH].
Qed.

Lemma linear_bounded (l : Linear R) (x y : list R) :
  Forall (fun h => Rabs h <= 1) x ->
  linear l x = Ok y ->
  Forall2 (fun m rb => Rabs m <= l1_norm (fst rb) + Rabs (snd rb))
          y (combine (weight l) (bias l)).
Proof.
  intros Hx. unfold linear. destruct (Nat.eqb _ _); [|discriminate].
  intros [= <-]. induction (combine (weight l) (bias l)) as [|rb rbs IH];
    cbn [map]; constructor; [|exact IH].
  cbn [s_add R_Scalar]. eapply Rle_trans; [apply Rabs_triang|].
  pose proof (dot_bounded (fst rb) Hx). lra.
Qed.

Lemma Tanh_bounded (h : list (list R)) :
  Forall (Forall (fun v => Rabs v <= 1)) (Tanh h).
Proof.
  unfold Tanh. apply Forall_map, Forall_forall. intros row _.
  apply Forall_map, Forall_forall. intros v _. apply tanh_bounded.
Qed.

(** X9.  Over the reals, whenever [forward] returns it returns one row of
    means and one of standard deviations per row of the batch; every
    standard deviation is strictly positive, and every mean is bounded, in
    absolute value, by the sum of the absolute values of its row of weights
    plus that of its bias, whatever the observation (the features it is
    computed from are hyperbolic tangents). *)
Theorem forward_real_bounds (self : Policy_Network R)
        (x means stddevs : list (list R)) :
  forward self x = Ok (means, stddevs) ->
  length means = length x /\ length stddevs = length x /\
  Forall (Forall (fun s => 0 < s)) stddevs /\
  Forall (fun row =>
            Forall2 (fun m rb => Rabs m <= l1_norm (fst rb) + Rabs (snd rb))
                    row
                    (combine (weight (policy_mean_net self))
                             (bias (policy_mean_net self))))
         means.
Proof.
  unfold forward, shared_net.
  destruct (on_rows (linear (shared_net_0 self)) x) as [h1|] eqn:E1;
    [|discriminate]. cbn [bind].
  destruct (on_rows (linear (shared_net_2 self)) (Tanh h1)) as [h2|] eqn:E2;
    [|discriminate]. cbn [bind].
  destruct (on_rows (linear (policy_mean_net self)) (Tanh h2)) as [m|] eqn:Em;
    [|discriminate]. cbn [bind].
  destruct (on_rows (linear (policy_stddev_net self)) (Tanh h2)) as [s|] eqn:Es;
    [|discriminate]. cbn [bind].
  intros [= <- <-].
  apply on_rows_inv in E1, E2, Em, Es.
  apply Forall2_length in E1, E2. pose proof (Forall2_length Em) as Lm.
  pose proof (Forall2_length Es) as Ls. unfold Tanh in *.
  rewrite !length_map in *.
  split; [congruence|]. split; [congruence|]. split.
  - apply Forall_map, Forall_forall. intros row _.
    apply Forall_map, Forall_forall. intros v _. apply softplus_real_positive.
  - pose proof (Tanh_bounded h2) as Hb. unfold Tanh in Hb.
    clear E1 E2 Es Lm Ls. revert Hb.
    induction Em as [|r y rs ys E _ IH]; intros Hb; constructor.
    + inversion Hb; subst. now apply linear_bounded with (x := r).
    + apply IH. inversion Hb; subst. assumption.
Qed.
End RealForward.

(** ** Where the computed scale is strictly positive *)

Section SafeRange.
Open Scope R_scope.

Lemma round_half_even_glb (n : Z) (x : R) :
  x <= IZR n -> (round_half_even x <= n)%Z.
Proof.
  intros Hn. destruct (Zfloor_bound x) as [Hl Hu].
  assert (Hf : (Zfloor x <= n)%Z) by (apply le_IZR; lra).
  unfold round_half_even.
  destruct (Rlt_dec _ _) as [|N1]; [lia|].
  assert (Hlt : (Zfloor x < n)%Z).
  { destruct (Z.eq_dec (Zfloor x) n) as [E|]; [|lia].
    exfalso. apply N1. rewrite E. lra. }
  destruct (Rlt_dec _ _); [lia|]. destruct (Z.even _); lia.
Qed.

Lemma pow2_IZR (z : Z) : (0 <= z)%Z -> powerRZ 2 z = IZR (2 ^ z).
Proof.
  intros Hz. rewrite <- (Z2Nat.id z Hz), <- pow_powerRZ.
  now rewrite pow_IZR.
Qed.

Lemma pow2_lt (a b : Z) : (a < b)%Z -> powerRZ 2 a < powerRZ 2 b.
Proof.
  intros Hab. rewrite !powerRZ_Rpower by lra.
  apply Rpower_lt; [lra | now apply IZR_lt].
Qed.

(** Rounding keeps a number between the powers of two it lies between. *)
Lemma round32_between (j j' : Z) (x : R) :
  (-126 <= j)%Z -> (j' <= 127)%Z ->
  powerRZ 2 j <= x <= powerRZ 2 j' ->
  exists y, round32 x = F32_fin y /\ powerRZ 2 j <= y <= powerRZ 2 j'.
Proof.
  intros Hj Hj' [Hl Hu].
  destruct (f32_exponent_normal Hj Hl) as (k & Hk & He & Hkx).
  assert (Hkj : (k <= j')%Z).
  { destruct (Z_le_gt_dec k j') as [|Hgt]; [assumption|].
    exfalso. assert (powerRZ 2 j' < powerRZ 2 k) by (apply pow2_lt; lia). lra. }
  unfold round32. rewrite He.
  set (m := round_half_even (x * powerRZ 2 (- (k - 23)))).
  assert (Hm : (2 ^ 23 <= m <= 2 ^ (j' - k + 23))%Z).
  { split.
    - apply round_half_even_lub.
      apply Rle_trans with (powerRZ 2 k * powerRZ 2 (- (k - 23))).
      + rewrite <- pow2_add. replace (k + - (k - 23))%Z with 23%Z by lia.
        simpl. lra.
      + apply Rmult_le_compat_r; [left; apply pow2_pos | exact Hkx].
    - apply round_half_even_glb. rewrite <- pow2_IZR by lia.
      replace (j' - k + 23)%Z with (j' + - (k - 23))%Z by lia. rewrite pow2_add.
      apply Rmult_le_compat_r; [left; apply pow2_pos | exact Hu]. }
  assert (Hy : powerRZ 2 j <= IZR m * powerRZ 2 (k - 23) <= powerRZ 2 j').
  { split.
    - apply Rle_trans with (powerRZ 2 k); [now apply pow2_le|].
      replace (powerRZ 2 k) with (IZR (2 ^ 23) * powerRZ 2 (k - 23)).
      + apply Rmult_le_compat_r; [left; apply pow2_pos | apply IZR_le; lia].
      + replace k with (23 + (k - 23))%Z at 2 by lia. rewrite pow2_add.
        simpl. lra.
    - replace (powerRZ 2 j') with (IZR (2 ^ (j' - k + 23)) * powerRZ 2 (k - 23)).
      + apply Rmult_le_compat_r; [left; apply pow2_pos | apply IZR_le; lia].
      + rewrite <- pow2_IZR by lia. rewrite <- pow2_add. f_equal. lia. }
  exists (IZR m * powerRZ 2 (k - 23)). split; [|exact Hy].
  destruct (Rlt_dec _ _) as [N|_]; [|reflexivity].
  exfalso. pose proof (pow2_pos j). rewrite Rabs_pos_eq in N by lra.
  assert (powerRZ 2 j' <= powerRZ 2 127) by (apply pow2_le; lia).
  assert (powerRZ 2 127 <= f32_max).
  { unfold f32_max. replace 127%Z with (23 + 104)%Z by reflexivity.
    rewrite pow2_add. apply Rmult_le_compat_r; [left; apply pow2_pos|].
    simpl. lra. }
  lra.
Qed.

Lemma round32_above_one (x : R) :
  1 + powerRZ 2 (-22) <= x <= powerRZ 2 127 ->
  exists z, round32 x = F32_fin z /\ 1 + powerRZ 2 (-22) <= z <= powerRZ 2 127.
Proof.
  intros [Hl Hu]. pose proof (pow2_pos (-22)) as Hp.
  destruct (Rlt_le_dec x 2) as [Hlt|Hge].
  - assert (H1 : powerRZ 2 0 <= x) by (simpl; lra).
    destruct (@f32_exponent_normal 0 x) as (k & Hk & He & Hkx); [lia | exact H1 |].
    assert (Ek : k = 0%Z).
    { destruct (Z_le_gt_dec k 0) as [|Hgt]; [lia|]. exfalso.
      assert (powerRZ 2 1 <= powerRZ 2 k) by (apply pow2_le; lia).
      simpl in H. lra. }
    subst k. unfold round32. rewrite He.
    set (m := round_half_even (x * powerRZ 2 (- (0 - 23)))).
    assert (E23 : powerRZ 2 (- (0 - 23)) = IZR (2 ^ 23)) by (simpl; lra).
    assert (E22 : powerRZ 2 (-22) * IZR (2 ^ 23) = 2).
    { rewrite <- (pow2_IZR (z := 23)) by lia. rewrite <- pow2_add. simpl. lra. }
    assert (F23 : powerRZ 2 (0 - 23) * IZR (2 ^ 23) = 1).
    { rewrite <- (pow2_IZR (z := 23)) by lia. rewrite <- pow2_add. simpl. lra. }
    assert (P23 : 0 < IZR (2 ^ 23)) by (apply IZR_lt; reflexivity).
    assert (Hm : (2 ^ 23 + 2 <= m <= 2 ^ 24)%Z).
    { split.
      - apply round_half_even_lub. rewrite E23, plus_IZR. nra.
      - apply round_half_even_glb. rewrite E23.
        replace (IZR (2 ^ 24)) with (2 * IZR (2 ^ 23)) by (simpl; lra). nra. }
    destruct Hm as [Hm1 Hm2]. apply IZR_le in Hm1, Hm2. rewrite plus_IZR in Hm1.
    replace (IZR (2 ^ 24)) with (2 * IZR (2 ^ 23)) in Hm2 by (simpl; lra).
    pose proof (pow2_pos (0 - 23)) as Q23.
    assert (Hy : 1 + powerRZ 2 (-22) <= IZR m * powerRZ 2 (0 - 23) <= 2) by nra.
    exists (IZR m * powerRZ 2 (0 - 23)).
    assert (T : 2 <= powerRZ 2 127).
    { apply Rle_trans with (powerRZ 2 1); [simpl; lra | apply pow2_le; lia]. }
    split; [|lra].
    destruct (Rlt_dec _ _) as [N|_]; [|reflexivity].
    exfalso. rewrite Rabs_pos_eq in N by lra.
    assert (powerRZ 2 127 <= f32_max).
    { unfold f32_max. replace 127%Z with (23 + 104)%Z by reflexivity.
      rewrite pow2_add. apply Rmult_le_compat_r; [left; apply pow2_pos|].
      simpl. lra. }
    lra.
  - destruct (@round32_between 1 127 x) as (z & E & Hz1 & Hz2);
      [lia | lia | split; [simpl; lra | exact Hu] |].
    exists z. split; [exact E|]. split; [|exact Hz2].
    apply Rle_trans with (powerRZ 2 1); [|exact Hz1].
    assert (powerRZ 2 (-22) <= powerRZ 2 0) by (apply pow2_le; lia).
    simpl in *. lra.
Qed.

Lemma ln_1_plus (u : R) : 0 <= u <= 1 -> u / 2 <= ln (1 + u).
Proof.
  intros [H0 H1]. destruct (Req_dec u 0) as [->|Hne].
  - rewrite Rplus_0_r, ln_1. lra.
  - rewrite <- (ln_exp (u / 2)). left. apply ln_increasing; [apply exp_pos|].
    assert (He : 1 + - (u / 2) < exp (- (u / 2))) by (apply exp_ineq1; lra).
    rewrite exp_Ropp in He. pose proof (exp_pos (u / 2)) as Hp.
    assert (Hi : exp (u / 2) * / exp (u / 2) = 1) by (field; lra).
    set (e := exp (u / 2)) in *. set (i := / e) in *.
    assert (A : e * (1 - u / 2) < 1) by nra.
    assert (B : 1 <= (1 + u) * (1 - u / 2)) by nra.
    assert (C : 0 < 1 - u / 2) by lra.
    apply (Rmult_lt_reg_r (1 - u / 2)); [exact C | lra].
Qed.

(** X10.  In single precision the scale [log(1 + exp(x))] is strictly
    positive and finite for every raw value between -11 and 60. *)
Theorem softplus_f32_safe_range (r : R) :
  -11 <= r <= 60 -> f32_positive_finite (softplus (F32_fin r)).
Proof.
  intros [Hl Hu]. pose proof ln_lt_2 as L2.
  unfold softplus. cbn [t_exp t_log s_add f32_Elementary f32_Scalar f32_exp].
  change (round32 (Q2R 1)) with (of_Q (F := f32) 1). rewrite f32_one.
  destruct (@round32_between (-22) 120 (exp r)) as (y & -> & Hy1 & Hy2);
    [lia | lia | |].
  { rewrite !pow2_exp. split.
    - destruct (Rle_lt_or_eq_dec (IZR (-22) * ln 2) r) as [Hlt|Heq]; [nra | |].
      + left. now apply exp_increasing.
      + rewrite Heq. lra.
    - destruct (Rle_lt_or_eq_dec r (IZR 120 * ln 2)) as [Hlt|Heq]; [nra | |].
      + left. now apply exp_increasing.
      + rewrite Heq. lra. }
  cbn [f32_add].
  destruct (@round32_above_one (1 + y)) as (z & -> & Hz1 & Hz2).
  { split; [lra|].
    assert (powerRZ 2 120 + powerRZ 2 120 <= powerRZ 2 127).
    { replace (powerRZ 2 120 + powerRZ 2 120) with (powerRZ 2 121).
      - apply pow2_le. lia.
      - replace 121%Z with (1 + 120)%Z by reflexivity. rewrite pow2_add.
        simpl. lra. }
    assert (1 <= powerRZ 2 120).
    { apply Rle_trans with (powerRZ 2 0); [simpl; lra | apply pow2_le; lia]. }
    lra. }
  pose proof (pow2_pos (-22)) as Hp.
  unfold f32_log, is_negative, is_zero.
  destruct (Rlt_dec z 0); [lra|]. destruct (Req_dec_T z 0); [lra|].
  destruct (@round32_between (-23) 127 (ln z)) as (s & -> & Hs1 & _);
    [lia | lia | | cbn; pose proof (pow2_pos (-23)); lra].
  split.
  - apply Rle_trans with (ln (1 + powerRZ 2 (-22))).
    + replace (powerRZ 2 (-23)) with (powerRZ 2 (-22) / 2).
      * apply ln_1_plus. split; [lra|].
        apply Rle_trans with (powerRZ 2 0); [apply pow2_le; lia | simpl; lra].
      * replace (-22)%Z with (1 + -23)%Z by reflexivity. rewrite pow2_add.
        simpl. lra.
    + destruct (Rle_lt_or_eq_dec _ _ Hz1) as [Hlt| ->]; [|lra].
      left. apply ln_increasing; lra.
  - apply Rle_trans with z; [|exact Hz2].
    rewrite <- (ln_exp z) at 2. 
    destruct (Rle_lt_or_eq_dec (ln z) (ln (exp z))) as [|]; try lra.
    left. apply ln_increasing; [lra|]. pose proof (exp_ineq1_le z). lra.
Qed.
End SafeRange.

(** ** The episode loop *)

Section DriverFacts.
Context {F : Type} {SF : Scalar F} {EF : Elementary F} {CF : Comparison F}
        {TF : Torch F} {EV : Env F}.

(** What one turn of the loop leaves of the agent. *)
Lemma turn_inv (agent : REINFORCE) (obs : list F) (g : Generator)
      (action : list F) (agent1 : REINFORCE) (g1 : Generator) (reward : F) :
  sample_action agent obs g = Ok (action, agent1, g1) ->
  length (probs (append_reward agent1 reward)) = S (length (probs agent)) /\
  rewards (append_reward agent1 reward) = rewards agent ++ [reward] /\
  net (append_reward agent1 reward) = net agent /\
  optimizer (append_reward agent1 reward) = optimizer agent /\
  gamma (append_reward agent1 reward) = gamma agent /\
  eps (append_reward agent1 reward) = eps agent /\
  learning_rate (append_reward agent1 reward) = learning_rate agent.
Proof.
  intros E. apply sample_action_inv in E as (d & prob & _ & _ & _ & _ & ->).
  cbn. rewrite length_app. cbn. repeat split. lia.
Qed.

Lemma episode_trace_inv (agent : REINFORCE) (g : Generator) (env : env_state)
      (obs : list F) (turns : list (list F * list F * F))
      (agent' : REINFORCE) (g' : Generator) (env' : env_state) :
  episode_trace agent g env obs turns agent' g' env' ->
  (1 <= length turns)%nat /\
  length (probs agent') = (length (probs agent) + length turns)%nat /\
  rewards agent' = rewards agent ++ map snd turns /\
  net agent' = net agent /\ optimizer agent' = optimizer agent /\
  gamma agent' = gamma agent /\ eps agent' = eps agent /\
  learning_rate agent' = learning_rate agent.
Proof.
  induction 1 as [agent g env obs action agent1 g1 env1 obs1 reward
                    terminated truncated E _ _
                 | agent g env obs action agent1 g1 env1 obs1 reward
                    terminated truncated turns agent' g' env' E _ _ _ IH].
  - destruct (@turn_inv _ _ _ _ _ _ reward E) as (Hp & Hr & Hn & Ho & Hg & He & Hl).
    cbn [length map snd]. repeat split; try assumption; lia.
  - destruct (@turn_inv _ _ _ _ _ _ reward E) as (Hp & Hr & Hn & Ho & Hg & He & Hl).
    destruct IH as (_ & Hp' & Hr' & Hn' & Ho' & Hg' & He' & Hl').
    cbn [length map snd]. rewrite Hp', Hr', Hp, Hr, <- app_assoc. cbn [app].
    repeat split; try congruence; lia.
Qed.

(** The loop goes through the turns of a trace, and a trace is what the
    loop goes through. *)
Lemma episode_loop_trace (fuel : nat) (agent : REINFORCE) (g : Generator)
      (env : env_state) (obs : list F)
      (agent' : REINFORCE) (g' : Generator) (env' : env_state) :
  episode_loop fuel agent g env obs = Some (Ok (agent', g', env')) ->
  exists turns,
    episode_trace agent g env obs turns agent' g' env' /\
    (length turns <= fuel)%nat.
Proof.
  revert agent g env obs. induction fuel as [|fuel IH]; intros agent g env obs;
    cbn [episode_loop]; [discriminate|].
  destruct (sample_action agent obs g) as [[[a a1] g1]|e] eqn:E; [|discriminate].
  destruct (env_step a env) as [env1 [[[obs1 reward] terminated] truncated]] eqn:Ev.
  destruct (orb terminated truncated) eqn:Ed.
  - intros [= <- <- <-]. exists [(obs, a, reward)]. split; [|cbn; lia].
    eapply episode_trace_last; eassumption.
  - intros L. apply IH in L as (turns & T & Hl).
    exists ((obs, a, reward) :: turns). split; [|cbn [length]; lia].
    eapply episode_trace_turn; eassumption.
Qed.

Lemma episode_trace_loop (agent : REINFORCE) (g : Generator) (env : env_state)
      (obs : list F) (turns : list (list F * list F * F))
      (agent' : REINFORCE) (g' : Generator) (env' : env_state) :
  episode_trace agent g env obs turns agent' g' env' ->
  forall fuel, (length turns <= fuel)%nat ->
               episode_loop fuel agent g env obs = Some (Ok (agent', g', env')).
Proof.
  induction 1 as [agent g env obs action agent1 g1 env1 obs1 reward
                    terminated truncated E Ev Ed
                 | agent g env obs action agent1 g1 env1 obs1 reward
                    terminated truncated turns agent' g' env' E Ev Ed _ IH];
    intros fuel Hf; (destruct fuel as [|fuel]; [cbn in Hf; lia|]);
    cbn [episode_loop]; rewrite E, Ev, Ed; [reflexivity|].
  apply IH. cbn [length] in Hf. lia.
Qed.

Lemma episode_loop_error (fuel : nat) (agent : REINFORCE) (g : Generator)
      (env : env_state) (obs : list F) (e : exn) :
  episode_loop fuel agent g env obs = Some (Error e) ->
  e = RuntimeError \/ e = ValueError.
Proof.
  revert agent g env obs. induction fuel as [|fuel IH]; intros agent g env obs;
    cbn [episode_loop]; [discriminate|].
  destruct (sample_action agent obs g) as [[[a a1] g1]|e0] eqn:E.
  - destruct (env_step a env) as [env1 [[[obs1 reward] terminated] truncated]].
    destruct (orb terminated truncated); [discriminate | apply IH].
  - intros [= <-]. exact (sample_action_error _ _ _ E).
Qed.

(** With enough fuel the loop ends: it returns, or [Normal] has rejected
    what the network gave for one of the observations. *)
Lemma episode_loop_outcome (obs_space_dims action_space_dims : nat) (n : nat) :
  forall (fuel : nat) (agent : REINFORCE) (g : Generator) (env : env_state)
         (obs : list F),
    network_shape obs_space_dims action_space_dims (net agent) ->
    length obs = obs_space_dims ->
    ends_within obs_space_dims n env ->
    (n < fuel)%nat ->
    (exists agent' g' env',
        episode_loop fuel agent g env obs = Some (Ok (agent', g', env')))
    \/ (episode_loop fuel agent g env obs = Some (Error ValueError) /\
        ~ Normal_accepts obs_space_dims (eps agent) (net agent)).
Proof.
  induction n as [|n IH]; intros fuel agent g env obs Hn Ho He Hf;
    (destruct fuel as [|fuel]; [lia|]); cbn [episode_loop];
    destruct (sample_action_cases agent obs g Hn Ho)
      as (means & stddevs & _ & _ & _ & H); cbv zeta in H;
    destruct H as (Ea & _ & H); cbn [loc scale] in Ea, H;
    match type of H with (if ?c then _ else _) => destruct c eqn:V end.
  2, 4: right; rewrite H; split; [reflexivity|]; intros Hacc;
    destruct (Hacc obs g _ Ho Ea) as (V1 & V2 & V3);
    cbn [fst snd] in V1, V2, V3; rewrite V1, V2, V3 in V; discriminate V.
  all: rewrite H;
    match goal with
    | |- context [env_step ?a ?e] =>
        specialize (He a); cbv zeta in He;
        destruct (env_step a e) as [env1 [[[obs1 reward] terminated] truncated]]
    end;
    cbn [fst snd] in He.
  - destruct He as [-> | []]. left. now eexists _, _, _.
  - destruct He as [-> | [Ho1 He1]]; [left; now eexists _, _, _|].
    destruct (orb terminated truncated); [left; now eexists _, _, _|].
    match goal with
    | |- context [episode_loop ?f ?ag ?g1 ?e1 ?o1] =>
        apply (IH f ag g1 e1 o1)
    end; [exact Hn | exact Ho1 | exact He1 | lia].
Qed.

Lemma nonempty_buffers (agent : REINFORCE) (g : Generator) (env : env_state)
      (obs : list F) (turns : list (list F * list F * F))
      (agent' : REINFORCE) (g' : Generator) (env' : env_state) :
  episode_trace agent g env obs turns agent' g' env' ->
  probs agent' <> [] /\ rewards agent' <> [].
Proof.
  intros T. destruct (episode_trace_inv T) as (H1 & Hp & Hr & _). split.
  - intros N. rewrite N in Hp. cbn [length] in Hp. lia.
  - rewrite Hr. destruct turns as [|t turns]; [cbn in H1; lia|].
    cbn [map]. intros N. apply app_eq_nil in N as [_ N]. discriminate N.
Qed.

(** What the [update] at the end of an episode does to an agent the loop
    has returned. *)
Lemma update_after_loop (fuel : nat) (agent : REINFORCE) (g : Generator)
      (env : env_state) (obs : list F)
      (agent1 : REINFORCE) (g1 : Generator) (env1 : env_state) :
  episode_loop fuel agent g env obs = Some (Ok (agent1, g1, env1)) ->
  exists agent2,
    update agent1 = Ok agent2 /\
    probs agent2 = [] /\ rewards agent2 = [] /\
    gamma agent2 = gamma agent /\ eps agent2 = eps agent /\
    learning_rate agent2 = learning_rate agent /\
    forall o a, network_shape o a (net agent) -> network_shape o a (net agent2).
Proof.
  intros L. apply episode_loop_trace in L as (turns & T & _).
  destruct (nonempty_buffers T) as [Hp Hr].
  destruct (episode_trace_inv T) as (_ & _ & _ & Hn & _ & Hg & He & Hl).
  destruct (update_ok agent1 Hp Hr) as (l & _ & U). cbv zeta in U.
  eexists. split; [exact U|]. cbn.
  do 5 (split; [assumption || reflexivity|]).
  intros o a Hs. apply load_parameters_shape. now rewrite Hn.
Qed.

Lemma driver_episode_total (obs_space_dims action_space_dims n fuel : nat)
      (seed : Z) (agent : REINFORCE) (g : Generator) (env : env_state) :
  network_shape obs_space_dims action_space_dims (net agent) ->
  length (snd (env_reset seed env)) = obs_space_dims ->
  ends_within obs_space_dims n (fst (env_reset seed env)) ->
  (n < fuel)%nat ->
  (exists agent' g' env',
      driver_episode fuel seed (agent, g, env) = Some (Ok (agent', g', env')) /\
      probs agent' = [] /\ rewards agent' = [] /\ eps agent' = eps agent /\
      network_shape obs_space_dims action_space_dims (net agent'))
  \/ (driver_episode fuel seed (agent, g, env) = Some (Error ValueError) /\
      ~ Normal_accepts obs_space_dims (eps agent) (net agent)).
Proof.
  intros Hn Ho He Hf. unfold driver_episode.
  destruct (env_reset seed env) as [env0 obs]. cbn [fst snd] in *.
  destruct (@episode_loop_outcome obs_space_dims action_space_dims n fuel agent g
              env0 obs Hn Ho He Hf)
    as [(a1 & g1 & env1 & L) | [L N]]; rewrite L; [left | now right].
  destruct (update_after_loop _ _ _ _ _ L) as (a2 & U & Hp & Hr & _ & Hep & _ & Hs).
  rewrite U. exists a2, g1, env1. split; [reflexivity|].
  split; [exact Hp|]. split; [exact Hr|]. split; [exact Hep|]. apply Hs, Hn.
Qed.

(** *** Two runs of the same seed *)

Section TwoRuns.
Variable sim : env_state -> env_state -> Prop.
Variable seed : Z.
Hypothesis reset_sim :
  forall env1 env2,
    snd (env_reset seed env1) = snd (env_reset seed env2) /\
    sim (fst (env_reset seed env1)) (fst (env_reset seed env2)).
Hypothesis step_sim :
  forall action env1 env2,
    sim env1 env2 ->
    snd (env_step action env1) = snd (env_step action env2) /\
    sim (fst (env_step action env1)) (fst (env_step action env2)).

Lemma episode_loop_sim (fuel : nat) :
  forall (agent : REINFORCE) (g : Generator) (env1 env2 : env_state)
         (obs : list F),
    sim env1 env2 ->
    same_run (episode_loop fuel agent g env1 obs)
             (episode_loop fuel agent g env2 obs).
Proof.
  induction fuel as [|fuel IH]; intros agent g env1 env2 obs Hs;
    cbn [episode_loop]; [exact I|].
  destruct (sample_action agent obs g) as [[[a a1] g1]|e]; [|reflexivity].
  destruct (step_sim a Hs) as [Ho Hs'].
  destruct (env_step a env1) as [e1 [[[o1 r1] t1] u1]].
  destruct (env_step a env2) as [e2 [[[o2 r2] t2] u2]].
  cbn [fst snd] in Ho, Hs'. injection Ho as -> -> -> ->.
  destruct (orb t2 u2); [now split | now apply IH].
Qed.

Lemma driver_episode_sim (fuel : nat) (agent : REINFORCE) (g : Generator)
      (env1 env2 : env_state) :
  same_run (driver_episode fuel seed (agent, g, env1))
           (driver_episode fuel seed (agent, g, env2)).
Proof.
  unfold driver_episode. destruct (reset_sim env1 env2) as [Ho Hs].
  destruct (env_reset seed env1) as [e1 o1].
  destruct (env_reset seed env2) as [e2 o2].
  cbn [fst snd] in Ho, Hs. subst o2.
  pose proof (episode_loop_sim fuel agent g o1 Hs) as L.
  destruct (episode_loop fuel agent g e1 o1) as [[[[a1 g1] x1]|er1]|];
    destruct (episode_loop fuel agent g e2 o1) as [[[[a2 g2] x2]|er2]|];
    cbn in L; try contradiction; try exact L.
  destruct L as [-> ->]. destruct (update a2); [now split | reflexivity].
Qed.

Lemma driver_episodes_sim (fuel n : nat) :
  forall (agent : REINFORCE) (g : Generator) (env1 env2 : env_state),
    same_run (driver_episodes fuel seed n (agent, g, env1))
             (driver_episodes fuel seed n (agent, g, env2)).
Proof.
  induction n as [|n IH]; intros agent g env1 env2; cbn [driver_episodes];
    [now split|].
  pose proof (driver_episode_sim fuel agent g env1 env2) as E.
  destruct (driver_episode fuel seed (agent, g, env1)) as [[[[a1 g1] x1]|er1]|];
    destruct (driver_episode fuel seed (agent, g, env2)) as [[[[a2 g2] x2]|er2]|];
    cbn in E; try contradiction; try exact E.
  destruct E as [-> ->]. apply IH.
Qed.
End TwoRuns.

Lemma driver_episodes_S (fuel : nat) (seed : Z) (n : nat)
      (st : REINFORCE * Generator * env_state) :
  driver_episodes fuel seed (S n) st =
  match driver_episode fuel seed st with
  | Some (Ok st') => driver_episodes fuel seed n st'
  | stopped => stopped
  end.
Proof. reflexivity. Qed.

Lemma driver_episodes_snoc (fuel : nat) (seed : Z) (n : nat) :
  forall st,
    driver_episodes fuel seed (S n) st =
    match driver_episodes fuel seed n st with
    | Some (Ok st') => driver_episode fuel seed st'
    | stopped => stopped
    end.
Proof.
  induction n as [|n IH]; intros st.
  - cbn [driver_episodes]. now destruct (driver_episode fuel seed st) as [[?|?]|].
  - rewrite (driver_episodes_S fuel seed (S n) st), (driver_episodes_S fuel seed n st).
    destruct (driver_episode fuel seed st) as [[st'|e]|];
      [apply IH | reflexivity | reflexivity].
Qed.

(** C6.  The run of a seed is a function of the seed and of what the
    environment shows, and of nothing else the program holds.  Take an
    environment that [reset(seed=seed)] brings to the same observation and
    the same dynamics whatever state it is in, up to what it keeps to itself
    ([sim]: the same actions are answered by the same observations, rewards
    and end flags).  Then two runs of the seed, started with any two states
    of the global generator and of the environment (whatever the runs before
    them have left), end alike: both with the same agent, bit for bit the
    same parameters and optimizer state, and the same generator, or both
    with the same exception.  This holds for every number of episodes, so
    the parameters agree after each update; and a run of one more episode is
    the shorter run followed by that episode, with its one update. *)
Theorem driver_seed_deterministic
        (sim : env_state -> env_state -> Prop)
        (fuel obs_space_dims action_space_dims total_num_episodes : nat)
        (seed : Z) :
  (forall env1 env2,
      snd (env_reset seed env1) = snd (env_reset seed env2) /\
      sim (fst (env_reset seed env1)) (fst (env_reset seed env2))) ->
  (forall action env1 env2,
      sim env1 env2 ->
      snd (env_step action env1) = snd (env_step action env2) /\
      sim (fst (env_step action env1)) (fst (env_step action env2))) ->
  (forall before1 before2 : Generator * env_state,
      same_run (driver_seed fuel obs_space_dims action_space_dims
                            total_num_episodes seed before1)
               (driver_seed fuel obs_space_dims action_space_dims
                            total_num_episodes seed before2))
  /\ (forall before : Generator * env_state,
        driver_seed fuel obs_space_dims action_space_dims
                    (S total_num_episodes) seed before =
        match driver_seed fuel obs_space_dims action_space_dims
                          total_num_episodes seed before with
        | Some (Ok st) => driver_episode fuel seed st
        | stopped => stopped
        end).
Proof.
  intros Hreset Hstep. split.
  - intros [g1 env1] [g2 env2]. unfold driver_seed.
    destruct (REINFORCE_new obs_space_dims action_space_dims (manual_seed seed))
      as [agent g].
    now apply driver_episodes_sim with sim.
  - intros [g0 env]. unfold driver_seed.
    destruct (REINFORCE_new obs_space_dims action_space_dims (manual_seed seed))
      as [agent g].
    apply driver_episodes_snoc.
Qed.

(** A run of the driver for a seed returns, if the environment ends every
    episode in time and [Normal] accepts what any network of the configured
    sizes gives. *)
Lemma driver_episodes_complete (obs_space_dims action_space_dims n fuel : nat)
      (seed : Z) (k : nat) :
  (forall env, length (snd (env_reset seed env)) = obs_space_dims /\
               ends_within obs_space_dims n (fst (env_reset seed env))) ->
  (n < fuel)%nat ->
  forall (agent : REINFORCE) (g : Generator) (env : env_state),
    network_shape obs_space_dims action_space_dims (net agent) ->
    (forall net', Normal_accepts obs_space_dims (eps agent) net') ->
    exists st, driver_episodes fuel seed k (agent, g, env) = Some (Ok st).
Proof.
  intros Henv Hf. induction k as [|k IH]; intros agent g env Hn Hacc;
    cbn [driver_episodes]; [now eexists|].
  destruct (Henv env) as [Ho He].
  destruct (@driver_episode_total obs_space_dims action_space_dims n fuel seed
              agent g env Hn Ho He Hf)
    as [(a1 & g1 & env1 & E & _ & _ & Hep & Hn1) | [_ N]];
    [|destruct (N (Hacc _))].
  rewrite E. apply IH; [exact Hn1|]. now rewrite Hep.
Qed.

Lemma driver_seed_complete (obs_space_dims action_space_dims n fuel : nat)
      (seed : Z) (k : nat) (before : Generator * env_state) :
  (forall env, length (snd (env_reset seed env)) = obs_space_dims /\
               ends_within obs_space_dims n (fst (env_reset seed env))) ->
  (n < fuel)%nat ->
  (forall net', Normal_accepts obs_space_dims (of_Q 1e-6) net') ->
  exists st,
    driver_seed fuel obs_space_dims action_space_dims k seed before
    = Some (Ok st).
Proof.
  intros Henv Hf Hacc. destruct before as [g0 env]. unfold driver_seed.
  pose proof (configured_new obs_space_dims action_space_dims (manual_seed seed))
    as Hc.
  destruct (REINFORCE_new obs_space_dims action_space_dims (manual_seed seed))
    as [agent g].
  cbn [fst] in Hc.
  apply driver_episodes_complete with obs_space_dims action_space_dims n;
    [exact Henv | exact Hf | now apply configured_shape |].
  intros net'. rewrite (configured_eps Hc). apply Hacc.
Qed.

(** X11.  An episode loop that has ended went through a trace of at least
    one and at most [fuel] turns; in each turn the action is the one
    [sample_action] returned for the observation the environment showed
    last (the given one in the first turn), and the reward the one the
    environment paid for that action.  The loop has appended one
    log-probability per turn and the rewards of the turns in their order,
    and has left the network and the optimizer alone.  More fuel than the
    trace has turns changes nothing. *)
Theorem episode_loop_turns (fuel : nat) (agent : REINFORCE)
        (g : Generator) (env : env_state) (obs : list F)
        (agent' : REINFORCE) (g' : Generator) (env' : env_state) :
  episode_loop fuel agent g env obs = Some (Ok (agent', g', env')) ->
  exists turns,
    episode_trace agent g env obs turns agent' g' env' /\
    (1 <= length turns <= fuel)%nat /\
    length (probs agent') = (length (probs agent) + length turns)%nat /\
    rewards agent' = rewards agent ++ map snd turns /\
    net agent' = net agent /\ optimizer agent' = optimizer agent /\
    (forall fuel', (length turns <= fuel')%nat ->
                   episode_loop fuel' agent g env obs
                   = Some (Ok (agent', g', env'))).
Proof.
  intros L. apply episode_loop_trace in L as (turns & T & Hl).
  exists turns. split; [exact T|].
  destruct (episode_trace_inv T) as (H1 & Hp & Hr & Hn & Ho & _).
  split; [lia|]. do 4 (split; [assumption|]).
  now apply episode_trace_loop.
Qed.

(** X12.  One episode of the driver, whatever the agent it starts from and
    whatever a returning environment shows.  The exceptions it can end with
    are those of [sample_action], [RuntimeError] and [ValueError]: the
    [AttributeError] of [update] cannot occur, since the loop has recorded a
    step before [update] is called.  When the episode returns both buffers
    are empty, the hyperparameters are unchanged and the layers keep their
    sizes. *)
Theorem driver_episode_outcomes (fuel : nat) (seed : Z) (agent : REINFORCE)
        (g : Generator) (env : env_state) :
  (forall e, driver_episode fuel seed (agent, g, env) = Some (Error e) ->
             e = RuntimeError \/ e = ValueError)
  /\ (forall agent' g' env',
        driver_episode fuel seed (agent, g, env) = Some (Ok (agent', g', env')) ->
        probs agent' = [] /\ rewards agent' = [] /\
        gamma agent' = gamma agent /\ eps agent' = eps agent /\
        learning_rate agent' = learning_rate agent /\
        forall o a, network_shape o a (net agent) -> network_shape o a (net agent')).
Proof.
  unfold driver_episode. destruct (env_reset seed env) as [env0 obs].
  destruct (episode_loop fuel agent g env0 obs) as [[[[a1 g1] env1]|e1]|] eqn:L.
  - destruct (update_after_loop _ _ _ _ _ L) as (a2 & U & H). rewrite U. split.
    + discriminate.
    + intros agent' g' env'. intros [= <- <- <-]. exact H.
  - split; [|discriminate]. intros e [= <-]. exact (episode_loop_error _ _ _ _ _ L).
  - split; discriminate.
Qed.

(** X13.  If the network is configured for the observations the
    environment shows and the environment ends every episode within [n]
    steps after the first, an episode of the driver with more than [n]
    turns of fuel comes to an end: it returns an agent with empty buffers
    and a network of the same sizes, or it raises the [ValueError] of
    [Normal].  It returns if [Normal] accepts what the network gives for
    every observation of that size. *)
Theorem driver_episode_completes (obs_space_dims action_space_dims n fuel : nat)
        (seed : Z) (agent : REINFORCE) (g : Generator) (env : env_state) :
  network_shape obs_space_dims action_space_dims (net agent) ->
  length (snd (env_reset seed env)) = obs_space_dims ->
  ends_within obs_space_dims n (fst (env_reset seed env)) ->
  (n < fuel)%nat ->
  ((exists agent' g' env',
       driver_episode fuel seed (agent, g, env) = Some (Ok (agent', g', env')) /\
       probs agent' = [] /\ rewards agent' = [] /\
       network_shape obs_space_dims action_space_dims (net agent'))
   \/ driver_episode fuel seed (agent, g, env) = Some (Error ValueError))
  /\ (Normal_accepts obs_space_dims (eps agent) (net agent) ->
      exists agent' g' env',
        driver_episode fuel seed (agent, g, env) = Some (Ok (agent', g', env')) /\
        probs agent' = [] /\ rewards agent' = [] /\
        network_shape obs_space_dims action_space_dims (net agent')).
Proof.
  intros Hn Ho He Hf.
  destruct (@driver_episode_total obs_space_dims action_space_dims n fuel seed
              agent g env Hn Ho He Hf)
    as [(a1 & g1 & env1 & E & Hp & Hr & _ & Hn1) | [E N]].
  - split; [left|intros _]; now exists a1, g1, env1.
  - split; [now right | intros Hacc; destruct (N Hacc)].
Qed.
End DriverFacts.

(** ** [sample_action], its exceptions and what it logs *)

Section SampleActionFacts.
Context {F : Type} {SF : Scalar F} {EF : Elementary F} {CF : Comparison F}
        {TF : Torch F}.

Lemma log_density_entries (e : F) (means stddevs value : list F) :
  log_density {| loc := map (fun m => s_add m e) means;
                 scale := map (fun s => s_add s e) stddevs |} value
  = map (fun msv => normal_log_prob (s_add (fst (fst msv)) e)
                                    (s_add (snd (fst msv)) e) (snd msv))
        (combine (combine means stddevs) value).
Proof.
  unfold log_density. cbn [loc scale]. revert stddevs value.
  induction means as [|m means IH]; intros [|s stddevs] [|v value];
    try reflexivity.
  cbn [map combine fst snd]. f_equal. apply IH.
Qed.

Lemma log_prob_graph_here (obs_space_dims action_space_dims : nat)
      (self : REINFORCE) (state action : list F) :
  network_shape obs_space_dims action_space_dims (net self) ->
  length state = obs_space_dims ->
  exists means stddevs,
    forward (net self) [state] = Ok ([means], [stddevs]) /\
    log_prob_graph (eps self) [state] action (net self)
    = log_density {| loc := map (fun m => s_add m (eps self)) means;
                     scale := map (fun s => s_add s (eps self)) stddevs |}
                  action.
Proof.
  intros Hn Hs.
  destruct (Normal_arguments_ok (eps self) state Hn Hs)
    as (means & stddevs & Ef & Lm & Ls & Ea).
  exists means, stddevs. split; [exact Ef|].
  unfold log_prob_graph. rewrite Ea. cbn [fst snd].
  now rewrite broadcast_all_same by (rewrite !length_map; congruence).
Qed.

(** X4.  The exceptions of [sample_action].  On any agent and any state it
    raises nothing but [RuntimeError] and [ValueError]; the index [0] it
    takes of the batch never fails.  On a network configured for [o]
    observations [RuntimeError] is raised exactly when the state does not
    have [o] entries, and [ValueError] exactly when it has [o] entries and
    one of the checks of [Normal] fails: a mean plus [eps] that is
    not-a-number, a standard deviation plus [eps] that is not greater than
    0, or a drawn entry that is not-a-number. *)
Theorem sample_action_outcomes (self : REINFORCE) (state : list F)
        (g : Generator) :
  (forall e, sample_action self state g = Error e ->
             e = RuntimeError \/ e = ValueError)
  /\ (forall o a,
        network_shape o a (net self) ->
        (sample_action self state g = Error RuntimeError <-> length state <> o)
        /\ (sample_action self state g = Error ValueError <->
            length state = o /\
            exists args,
              Normal_arguments (eps self) (net self) [state] = Ok args /\
              forallb constraints_real (fst args)
              && forallb constraints_positive (snd args)
              && forallb constraints_real
                   (fst (sample {| loc := fst args; scale := snd args |} g))
              = false)).
Proof.
  split; [intros e; apply sample_action_error|].
  intros o a Hn.
  destruct (Nat.eq_dec (length state) o) as [Hl|Hl].
  - destruct (sample_action_cases self state g Hn Hl)
      as (means & stddevs & _ & _ & _ & H). cbv zeta in H.
    destruct H as (Ea & _ & H). cbn [loc scale] in Ea, H.
    match type of H with (if ?c then _ else _) => destruct c eqn:V end; rewrite H.
    + split; split.
      * discriminate.
      * intros N. contradiction.
      * discriminate.
      * intros (_ & args & Ea' & V'). rewrite Ea in Ea'. injection Ea' as <-.
        cbn [fst snd] in V'. rewrite V in V'. discriminate V'.
    + split; split.
      * discriminate.
      * intros N. contradiction.
      * intros _. split; [exact Hl|]. eexists. split; [exact Ea | exact V].
      * reflexivity.
  - rewrite (sample_action_mismatch self state g Hn Hl). split; split.
    + intros _. exact Hl.
    + reflexivity.
    + discriminate.
    + intros (E & _). contradiction.
Qed.

(** X5.  What a returning [sample_action] appends, on a network of the
    configured sizes: with [means] and [stddevs] what the network gives for
    the state, the action is drawn from
    [Normal(means + eps, stddevs + eps)], and the appended entry holds, for
    each entry of the action, its log-density under the normal distribution
    with that entry's mean plus [eps] as location and that entry's standard
    deviation plus [eps] as scale.  The entry has one number per entry of
    the action, and equals what its graph computes at the current
    parameters. *)
Theorem sample_action_logs_log_prob (obs_space_dims action_space_dims : nat)
        (self : REINFORCE) (state : list F)
        (g : Generator) (action : list F) (self' : REINFORCE) (g' : Generator) :
  network_shape obs_space_dims action_space_dims (net self) ->
  sample_action self state g = Ok (action, self', g') ->
  exists means stddevs prob,
    forward (net self) [state] = Ok ([means], [stddevs]) /\
    sample {| loc := map (fun m => s_add m (eps self)) means;
              scale := map (fun s => s_add s (eps self)) stddevs |} g
    = (action, g') /\
    probs self' = probs self ++ [prob] /\
    data prob
    = map (fun msv => normal_log_prob (s_add (fst (fst msv)) (eps self))
                                      (s_add (snd (fst msv)) (eps self))
                                      (snd msv))
          (combine (combine means stddevs) action) /\
    length (data prob) = length action /\
    length action = action_space_dims /\
    grad_fn prob (net self) = data prob.
Proof.
  intros Hn E.
  destruct (Nat.eq_dec (length state) obs_space_dims) as [Hl|Hl];
    [|rewrite (sample_action_mismatch self state g Hn Hl) in E; discriminate E].
  destruct (sample_action_cases self state g Hn Hl)
    as (means & stddevs & Ef & Lm & Ls & H). cbv zeta in H.
  destruct H as (_ & La & H).
  match type of H with (if ?c then _ else _) => destruct c end;
    rewrite H in E; [|discriminate E].
  injection E as <- <- <-.
  exists means, stddevs. eexists. split; [exact Ef|].
  split; [apply surjective_pairing|]. split; [reflexivity|].
  cbn [data grad_fn]. split; [apply log_density_entries|].
  split; [|split; [exact La|]].
  - rewrite log_density_entries, length_map, !length_combine. lia.
  - destruct (log_prob_graph_here self state
                (fst (sample {| loc := map (fun m => s_add m (eps self)) means;
                                scale := map (fun s => s_add s (eps self)) stddevs |}
                             g)) Hn Hl)
      as (means' & stddevs' & Ef' & ->).
    rewrite Ef in Ef'. now injection Ef' as <- <-.
Qed.
End SampleActionFacts.

(** ** Further runs on concrete agents *)

(** X2 at an agent with one logged log-probability and one reward. *)
Lemma update_keeps_configuration_witness :
  exists self',
    update (with_buffers (fixture_agent 4 1) [constant [0%R]] [1%R]) = Ok self' /\
    gamma self' = gamma (fixture_agent 4 1) /\
    length (parameters (net self')) = 690%nat.
Proof.
  eexists. split; [reflexivity|].
  destruct (@update_keeps_configuration R _ (fixture_torch R)
              (with_buffers (fixture_agent 4 1) [constant [0%R]] [1%R]) _ eq_refl)
    as (_ & Hg & _ & Hl & _).
  split; [exact Hg|]. rewrite Hl. reflexivity.
Defined.

(** X5 at a freshly constructed agent and the observation [0, 0, 0, 0]. *)
Lemma sample_action_logs_log_prob_witness :
  exists action self' g' prob,
    sample_action (fixture_agent 4 1) [0; 0; 0; 0]%R 0%Z
    = Ok (action, self', g') /\
    probs self' = [prob] /\ length (data prob) = length action /\
    length action = 1%nat.
Proof.
  destruct (@fixture_sample_action 4 1 [0; 0; 0; 0]%R eq_refl)
    as (action & self' & g' & E).
  destruct (@sample_action_logs_log_prob R _ _ _ (fixture_torch R) 4 1
              (fixture_agent 4 1) [0; 0; 0; 0]%R 0%Z action self' g'
              (configured_shape (configured_new (TF := fixture_torch R) 4 1 0%Z))
              E)
    as (means & stddevs & prob & _ & _ & Hp & _ & Hl & La & _).
  exists action, self', g', prob. split; [exact E|].
  split; [exact Hp|]. split; [exact Hl | exact La].
Defined.

(** X7 at three rewards of 1 and gamma = 0.99. *)
Lemma discounted_returns_within_bounds_witness :
  Forall2 (fun r G => (r <= G /\ G <= 1 / (1 - 0.99))%Q)
          [1; 1; 1]%Q (discounted_returns 0.99%Q [1; 1; 1]%Q).
Proof.
  apply (@discounted_returns_within_bounds 0.99%Q 1%Q [1; 1; 1]%Q).
  - unfold Qle. simpl. lia.
  - unfold Qlt. simpl. lia.
  - repeat constructor; unfold Qle; simpl; lia.
Defined.

(** X9 at a freshly constructed network and the observation [0, 0, 0, 0]. *)
Lemma forward_real_bounds_witness :
  exists means stddevs,
    forward (net (fixture_agent 4 1)) [[0; 0; 0; 0]%R] = Ok (means, stddevs) /\
    Forall (Forall (fun s => (0 < s)%R)) stddevs.
Proof.
  do 2 eexists. split; [reflexivity|].
  exact (proj1 (proj2 (proj2
    (@forward_real_bounds (net (fixture_agent 4 1)) [[0; 0; 0; 0]%R] _ _ eq_refl)))).
Defined.

(** X10 at the raw value 0. *)
Lemma softplus_f32_safe_range_witness :
  f32_positive_finite (softplus (F32_fin 0)).
Proof. apply softplus_f32_safe_range. split; lra. Defined.

(** The environment that truncates after two steps ends every episode
    within one step after the first. *)
Lemma countdown_ends_within (count : nat) :
  ends_within (EV := countdown_env 4 2) 4 1 (2, count)%nat.
Proof.
  intros action. cbn. right. split; [reflexivity|].
  intros action'. cbn. now left.
Qed.

Lemma fixture_accepts (net' : Policy_Network R) :
  Normal_accepts (TF := fixture_torch R) 4 (of_Q 1e-6) net'.
Proof. apply Normal_accepts_real, eps_nonnegative. Qed.

(** X11 on that environment: the loop returns, and the rewards in the buffer
    are those of the turns of its trace. *)
Lemma episode_loop_turns_witness :
  exists agent' g' env' turns,
    episode_loop (TF := fixture_torch R) (EV := countdown_env 4 2) 5
                 (fixture_agent 4 1) 0%Z (2, 0)%nat [0; 0; 0; 0]%R
    = Some (Ok (agent', g', env')) /\
    episode_trace (TF := fixture_torch R) (EV := countdown_env 4 2)
                  (fixture_agent 4 1) 0%Z (2, 0)%nat [0; 0; 0; 0]%R turns
                  agent' g' env' /\
    rewards agent' = map snd turns.
Proof.
  destruct (@episode_loop_outcome R _ _ _ (fixture_torch R) (countdown_env 4 2)
              4 1 1 5 (fixture_agent 4 1) 0%Z (2, 0)%nat [0; 0; 0; 0]%R
              (configured_shape (configured_new (TF := fixture_torch R) 4 1 0%Z))
              eq_refl (countdown_ends_within 0) ltac:(lia))
    as [(agent' & g' & env' & L) | [_ N]];
    [|destruct (N (fixture_accepts _))].
  destruct (@episode_loop_turns R _ _ _ (fixture_torch R) (countdown_env 4 2)
              5 (fixture_agent 4 1) 0%Z (2, 0)%nat [0; 0; 0; 0]%R _ _ _ L)
    as (turns & T & _ & _ & Hr & _).
  exists agent', g', env', turns. split; [exact L|]. split; [exact T | exact Hr].
Defined.

(** X13 on the same environment. *)
Lemma driver_episode_completes_witness :
  exists agent' g' env',
    driver_episode (TF := fixture_torch R) (EV := countdown_env 4 2) 5 1%Z
                   (fixture_agent 4 1, 0%Z, (0, 0)%nat)
    = Some (Ok (agent', g', env')) /\
    probs agent' = [] /\ rewards agent' = [] /\
    network_shape 4 1 (net agent').
Proof.
  apply (proj2 (@driver_episode_completes R _ _ _ (fixture_torch R)
                  (countdown_env 4 2) 4 1 1 5 1%Z (fixture_agent 4 1) 0%Z
                  (0, 0)%nat
                  (configured_shape
                     (configured_new (TF := fixture_torch R) 4 1 0%Z))
                  eq_refl (countdown_ends_within 1) ltac:(lia))).
  apply (fixture_accepts (net (fixture_agent 4 1))).
Defined.

(** C6 on the same environment: two runs of seed 1 over three episodes, one
    started with the generator at 0 and a fresh environment, the other with
    the generator at 7 and an environment one step into its ninth episode,
    return the same agent and the same generator. *)
Lemma driver_seed_deterministic_witness :
  exists agent g env1 env2,
    driver_seed (TF := fixture_torch R) (EV := countdown_env 4 2) 5 4 1 3 1%Z
                (0%Z, (0, 0)%nat)
    = Some (Ok (agent, g, env1)) /\
    driver_seed (TF := fixture_torch R) (EV := countdown_env 4 2) 5 4 1 3 1%Z
                (7%Z, (1, 9)%nat)
    = Some (Ok (agent, g, env2)).
Proof.
  assert (Henv : forall env : env_state (Env := countdown_env 4 2),
             length (snd (env_reset (Env := countdown_env 4 2) 1%Z env)) = 4%nat /\
             ends_within (EV := countdown_env 4 2) 4 1
                         (fst (env_reset (Env := countdown_env 4 2) 1%Z env))).
  { intros env. split; [reflexivity | apply countdown_ends_within]. }
  destruct (@driver_seed_complete R _ _ _ (fixture_torch R) (countdown_env 4 2)
              4 1 1 5 1%Z 3 (0%Z, (0, 0)%nat) Henv ltac:(lia) fixture_accepts)
    as ([[a1 g1] x1] & E1).
  destruct (@driver_seed_complete R _ _ _ (fixture_torch R) (countdown_env 4 2)
              4 1 1 5 1%Z 3 (7%Z, (1, 9)%nat) Henv ltac:(lia) fixture_accepts)
    as ([[a2 g2] x2] & E2).
  pose proof (proj1 (@driver_seed_deterministic R _ _ _ (fixture_torch R)
                       (countdown_env 4 2) (fun e1 e2 => fst e1 = fst e2)
                       5 4 1 3 1%Z
                       (fun env1 env2 => conj eq_refl eq_refl)
                       (fun action env1 env2 H =>
                          conj (f_equal
                                  (fun l => (repeat 0%R 4, 1%R, false, Nat.leb l 1)) H)
                               (f_equal Nat.pred H)))
                    (0%Z, (0, 0)%nat) (7%Z, (1, 9)%nat)) as D.
  rewrite E1, E2 in D. destruct D as [Ha Hg].
  exists a2, g2, x1, x2. split; [now rewrite <- Ha, <- Hg | exact E2].
Defined.
